(** * SolverTomo: batching and conjugate gradients over an opaque Radon pair

    Shallow embedding of [src/tomocg/solver_tomo.py].

    - Scalars.  The source computes in complex64 / float64.  Here a real is
      an exact rational ([Qc]) and a complex number a pair of them, so the
      theorems below are statements about the algorithm in exact arithmetic;
      rounding, overflow and NaN are outside that model.  Termination of
      [line_search] does depend on rounding (the step underflows to zero),
      so the loop is given a second time with the step a binary64 float
      ([Binary64.line_search]).
    - Arrays.  A cupy / numpy array of rank 3 is a nested list, outermost
      axis first.  Element-wise operators are zips: every call site of the
      solver applies them to operands of equal shape (numpy would otherwise
      broadcast or raise).
    - The native routines [fwd] and [adj] of the base class [radonusfft] are
      not part of the Python source; they are parameters of the development.
    - Host arrays that a method could write to ([init] of [cg_tomo_batch])
      are references into a store; device arrays and arrays that are only
      read are values.
    - Loops that need not terminate ([line_search]) take a fuel argument and
      answer [OutOfFuel] when it is used up. *)

From Stdlib Require Import Floats.
From Stdlib Require Import QArith Qcanon Lqa.
From stdpp Require Import base numbers list gmap.

Local Open Scope Qc_scope.

(** ** Outcomes of a call *)

Inductive exn : Type :=
  | IndexError
  | ValueError
  | NameError
  | ZeroDivisionError.

Inductive result (A : Type) : Type :=
  | Done (a : A)
  | Raise (e : exn)
  | OutOfFuel.

Arguments Done {A} a.
Arguments Raise {A} e.
Arguments OutOfFuel {A}.

#[global] Instance result_ret : MRet result := @Done.
#[global] Instance result_bind : MBind result := λ A B f m,
  match m with
  | Done a => f a
  | Raise e => Raise e
  | OutOfFuel => OutOfFuel
  end.

(** [for x in l: s = body x s], the loop state threaded by hand. *)
Fixpoint for_each {A S : Type} (body : A → S → result S) (l : list A) (s : S)
  : result S :=
  match l with
  | [] => Done s
  | x :: l' => s' ← body x s; for_each body l' s'
  end.

(** ** Scalars *)

Definition half : Qc := Q2Qc (Qmake 1 2).

(** The literal [1e-32]. *)
Definition eps : Qc := Q2Qc (Qmake 1 100000000000000000000000000000000).

Definition Qc_of_nat (k : nat) : Qc := Qc_of_Z (Z.of_nat k).

Record C : Type := mkC { re : Qc; im : Qc }.

Definition C0 : C := mkC 0 0.
Definition C_of_Qc (r : Qc) : C := mkC r 0.
Definition Cadd (a b : C) : C := mkC (re a + re b) (im a + im b).
Definition Csub (a b : C) : C := mkC (re a - re b) (im a - im b).
Definition Copp (a : C) : C := mkC (- re a) (- im a).
Definition Cmul (a b : C) : C :=
  mkC (re a * re b - im a * im b) (re a * im b + im a * re b).
Definition Cconj (a : C) : C := mkC (re a) (- im a).
Definition Cabs2 (a : C) : Qc := re a * re a + im a * im a.
(** real * complex and complex / real *)
Definition Cscale (g : Qc) (a : C) : C := mkC (g * re a) (g * im a).
Definition Cdivr (a : C) (r : Qc) : C := mkC (re a / r) (im a / r).
(** complex / complex; a zero divisor gives 0 here (inf or nan in cupy) *)
Definition Cdiv (a b : C) : C := Cdivr (Cmul a (Cconj b)) (Cabs2 b).

(** ** Arrays *)

Abbreviation arr1 := (list C).
Abbreviation arr2 := (list (list C)).
Abbreviation arr3 := (list (list (list C))).

Definition map3 (f : C → C) (x : arr3) : arr3 :=
  (λ r : arr2, (λ s : arr1, f <$> s) <$> r) <$> x.
Definition zip3 (f : C → C → C) (x y : arr3) : arr3 :=
  zip_with (zip_with (zip_with f)) x y.

Definition a3add : arr3 → arr3 → arr3 := zip3 Cadd.
Definition a3sub : arr3 → arr3 → arr3 := zip3 Csub.
Definition a3mul : arr3 → arr3 → arr3 := zip3 Cmul.
Definition a3neg : arr3 → arr3 := map3 Copp.
Definition a3conj : arr3 → arr3 := map3 Cconj.
Definition a3scale (g : Qc) : arr3 → arr3 := map3 (Cscale g).
Definition a3cmul (c : C) : arr3 → arr3 := map3 (Cmul c).
Definition a3divr (x : arr3) (r : Qc) : arr3 := map3 (λ z, Cdivr z r) x.

(** [cp.sum] over one, two and three axes. *)
Definition csum1 (x : arr1) : C := foldr Cadd C0 x.
Definition csum2 (x : arr2) : C := foldr (λ r acc, Cadd (csum1 r) acc) C0 x.
Definition csum (x : arr3) : C := foldr (λ r acc, Cadd (csum2 r) acc) C0 x.

(** [cp.linalg.norm(x)**2]: the 2-norm of the flattened array, squared. *)
Definition norm2_1 (x : arr1) : Qc := foldr (λ z acc, Cabs2 z + acc) 0 x.
Definition norm2_2 (x : arr2) : Qc := foldr (λ r acc, norm2_1 r + acc) 0 x.
Definition norm2 (x : arr3) : Qc := foldr (λ r acc, norm2_2 r + acc) 0 x.

(** [cp.zeros([a, b, c])] *)
Definition zeros3 (a b c : nat) : arr3 := replicate a (replicate b (replicate c C0)).

(** A native routine receives the pointer of a preallocated buffer and
    leaves a value at each of its indices; the buffer keeps its shape. *)
Definition fill3 (res : arr3) (f : nat → nat → nat → C) : arr3 :=
  imap (λ i r, imap (λ j s, imap (λ k _, f i j k) s) r) res.

Definition shape3 (a b c : nat) (x : arr3) : Prop :=
  length x = a ∧ Forall (λ r, length r = b ∧ Forall (λ s, length s = c) r) x.

(** ** Indexing *)

(** [np.arange(a, b)] *)
Definition arange (a b : nat) : list nat := seq a (b - a).

(** [a // b] *)
Definition floordiv (a b : nat) : result nat :=
  if decide (b = 0)%nat then Raise ZeroDivisionError else Done (a / b)%nat.

Definition getitem {A : Type} (l : list A) (i : nat) : result A :=
  match l !! i with
  | Some x => Done x
  | None => Raise IndexError
  end.

Definition setitem {A : Type} (l : list A) (i : nat) (x : A) : result (list A) :=
  if decide (i < length l)%nat then Done (<[i:=x]> l) else Raise IndexError.

(** [l[ids]] with an index array: a fresh array of the selected entries. *)
Fixpoint take_ids {A : Type} (l : list A) (ids : list nat) : result (list A) :=
  match ids with
  | [] => Done []
  | i :: ids' => x ← getitem l i; xs ← take_ids l ids'; Done (x :: xs)
  end.

Fixpoint map_result {A B : Type} (f : A → result B) (l : list A) : result (list B) :=
  match l with
  | [] => Done []
  | x :: l' => y ← f x; ys ← map_result f l'; Done (y :: ys)
  end.

(** [data[:, ids]] *)
Definition take_ids1 {A : Type} (data : list (list A)) (ids : list nat)
  : result (list (list A)) :=
  map_result (λ row, take_ids row ids) data.

Fixpoint assign_each {A : Type} (l : list A) (ids : list nat) (v : list A)
  : result (list A) :=
  match ids, v with
  | i :: ids', x :: v' => l' ← setitem l i x; assign_each l' ids' v'
  | _, _ => Done l
  end.

(** [l[ids] = v] *)
Definition assign_ids {A : Type} (l : list A) (ids : list nat) (v : list A)
  : result (list A) :=
  if decide (length v = length ids) then assign_each l ids v
  else Raise ValueError.

Fixpoint map2_result {A B D : Type} (f : A → B → result D)
    (l : list A) (k : list B) : result (list D) :=
  match l, k with
  | x :: l', y :: k' => z ← f x y; zs ← map2_result f l' k'; Done (z :: zs)
  | _, _ => Done []
  end.

(** [res[:, ids] = v] *)
Definition assign_ids1 {A : Type} (res : list (list A)) (ids : list nat)
    (v : list (list A)) : result (list (list A)) :=
  if decide (length v = length res)
  then map2_result (λ row vrow, assign_ids row ids vrow) res v
  else Raise ValueError.

(** ** Line search *)

(** [while minf(Ru) - minf(Ru + gamma*Rd) < 0: gamma *= 0.5] *)
Fixpoint line_search (fuel : nat) (minf : arr3 → Qc) (gamma : Qc)
    (Ru Rd : arr3) : result Qc :=
  match fuel with
  | O => OutOfFuel
  | S fuel' =>
      if bool_decide (minf Ru - minf (a3add Ru (a3scale gamma Rd)) < 0)
      then line_search fuel' minf (gamma * half) Ru Rd
      else Done gamma
  end.

(** The same loop with the step as Python holds it, a binary64 float that
    [gamma *= 0.5] rounds: halved often enough it is [0.0].  The operands
    are of any type with [Ru + gamma*Rd] ([add], [scale]), as the method
    is called with arrays or with numbers, and [minf] returns a float. *)
Module Binary64.

(** [gamma] after [k] passes of [gamma *= 0.5]. *)
Fixpoint halved (k : nat) (gamma : float) : float :=
  match k with
  | O => gamma
  | S k' => halved k' (PrimFloat.mul gamma 0.5%float)
  end.

Section LineSearch.
Context {T : Type} (add : T → T → T) (scale : float → T → T).

(** The loop test [minf(Ru) - minf(Ru + gamma*Rd) < 0]. *)
Definition increases (minf : T → float) (Ru Rd : T) (gamma : float) : bool :=
  PrimFloat.ltb (PrimFloat.sub (minf Ru) (minf (add Ru (scale gamma Rd)))) 0%float.

Fixpoint line_search (fuel : nat) (minf : T → float) (gamma : float)
    (Ru Rd : T) : result float :=
  match fuel with
  | O => OutOfFuel
  | S fuel' =>
      if increases minf Ru Rd gamma
      then line_search fuel' minf (PrimFloat.mul gamma 0.5%float) Ru Rd
      else Done gamma
  end.

End LineSearch.

End Binary64.

(** ** Host arrays held by reference *)

(** A numpy array handed to a method is an object the method could write
    to.  Host arrays live in a store indexed by object identity. *)
Abbreviation loc := positive.
Abbreviation heap := (gmap positive (list (list (list C)))).

Definition M (A : Type) : Type := heap → result A * heap.

#[global] Instance M_ret : MRet M := λ A a h, (Done a, h).
#[global] Instance M_bind : MBind M := λ A B f m h,
  match m h with
  | (Done a, h') => f a h'
  | (Raise e, h') => (Raise e, h')
  | (OutOfFuel, h') => (OutOfFuel, h')
  end.

(** A computation that does not touch the store. *)
Definition lift {A : Type} (r : result A) : M A := λ h, (r, h).

(** Reading the array behind a reference. *)
Definition load (l : loc) : M arr3 := λ h,
  match h !! l with
  | Some v => (Done v, h)
  | None => (Raise NameError, h)
  end.

(** Writing through a reference: the object is updated in place. *)
Definition store (l : loc) (v : arr3) : M unit := λ h,
  match h !! l with
  | Some _ => (Done tt, <[l:=v]> h)
  | None => (Raise NameError, h)
  end.

(** [x.copy()]: a new object with the same contents. *)
Definition ndarray_copy (l : loc) : M loc := λ h,
  match h !! l with
  | Some v => let l' := fresh (dom h) in (Done l', <[l':=v]> h)
  | None => (Raise NameError, h)
  end.

(** [for x in l: body x], for its effect on the store. *)
Fixpoint for_eachM {A : Type} (body : A → M unit) (l : list A) : M unit :=
  match l with
  | [] => mret tt
  | x :: l' => _ ← body x; for_eachM body l'
  end.

(** ** The solver *)

Section SolverTomo.

(** Attributes set by [__init__]. *)
Variables ntheta nz n pnz : nat.

(** [self.fwd(res_ptr, u_ptr)] and [self.adj(res_ptr, data_ptr)] of the
    native base class: the value each leaves at index [(i, j, k)] of the
    result buffer, as a function of the input array. *)
Variable fwd : arr3 → nat → nat → nat → C.
Variable adj : arr3 → nat → nat → nat → C.

Definition fwd_tomo (u : arr3) : arr3 :=
  let res := zeros3 ntheta pnz n in
  fill3 res (fwd u).

Definition adj_tomo (data : arr3) : arr3 :=
  let res := zeros3 pnz n n in
  fill3 res (adj data).

Definition fwd_tomo_batch (u : arr3) : result arr3 :=
  let res := zeros3 ntheta nz n in
  nparts ← floordiv nz pnz;
  for_each (λ k res,
      let ids := arange (k * pnz) ((k + 1) * pnz) in
      u_gpu ← take_ids u ids;
      let res_gpu := fwd_tomo u_gpu in
      assign_ids1 res ids res_gpu)
    (seq 0 nparts) res.

Definition adj_tomo_batch (data : arr3) : result arr3 :=
  let res := zeros3 nz n n in
  nparts ← floordiv nz pnz;
  for_each (λ k res,
      let ids := arange (k * pnz) ((k + 1) * pnz) in
      data_gpu ← take_ids1 data ids;
      let res_gpu := adj_tomo data_gpu in
      assign_ids res ids res_gpu)
    (seq 0 nparts) res.

(** The local [minf] of [cg_tomo]. *)
Definition minf (xi0 Ru : arr3) : Qc := norm2 (a3sub Ru xi0).

(** [self.ntheta * self.n/2] *)
Definition cg_divisor : Qc := Qc_of_nat ntheta * Qc_of_nat n / 2.

(** The loop variables of [cg_tomo]: [u], and [d] with [grad0], which
    are unbound until the first pass has assigned them. *)
Record cg_vars : Type := CgVars {
  cg_u : arr3;
  cg_hist : option (arr3 * arr3)
}.

(** Lines 96-100: the search direction of pass [i]. *)
Definition cg_direction (i : nat) (hist : option (arr3 * arr3)) (grad : arr3)
  : result arr3 :=
  if decide (i = 0)%nat then Done (a3neg grad)
  else match hist with
       | Some (d, grad0) =>
           Done (a3add (a3neg grad)
                   (a3cmul
                      (Cdiv (C_of_Qc (norm2 grad))
                         (Cadd (csum (a3mul (a3conj d) (a3sub grad grad0)))
                            (C_of_Qc eps)))
                      d))
       | None => Raise NameError
       end.

(** One pass of the [for i in range(titer)] loop.  The print guarded by
    [np.mod(i, 1) == -1] never runs and is left out. *)
Definition cg_body (fuel : nat) (xi0 : arr3) (i : nat) (s : cg_vars)
  : result cg_vars :=
  let u := cg_u s in
  let Ru := fwd_tomo u in
  let grad := a3divr (adj_tomo (a3sub Ru xi0)) cg_divisor in
  d ← cg_direction i (cg_hist s) grad;
  let Rd := fwd_tomo d in
  g ← line_search fuel (minf xi0) 1 Ru Rd;
  let gamma := half * g in
  let grad0 := grad in
  Done (CgVars (a3add u (a3scale gamma d)) (Some (d, grad0))).

(** The loop variables after the first [i] passes. *)
Definition cg_run (fuel : nat) (xi0 u : arr3) (i : nat) : result cg_vars :=
  for_each (cg_body fuel xi0) (seq 0 i) (CgVars u None).

Definition cg_tomo (fuel : nat) (xi0 u : arr3) (titer : nat) : result arr3 :=
  s ← cg_run fuel xi0 u titer; Done (cg_u s).

Definition cg_tomo_batch (fuel : nat) (xi0 : arr3) (init : loc) (titer : nat)
  : M loc :=
  u ← ndarray_copy init;
  nparts ← lift (floordiv nz pnz);
  _ ← for_eachM (λ k,
      let ids := arange (k * pnz) ((k + 1) * pnz) in
      uv ← load u;
      u_gpu ← lift (take_ids uv ids);
      xi0_gpu ← lift (take_ids1 xi0 ids);
      u_gpu' ← lift (cg_tomo fuel xi0_gpu u_gpu titer);
      uv' ← load u;
      w ← lift (assign_ids uv' ids u_gpu');
      store u w)
    (seq 0 nparts);
  mret u.

End SolverTomo.

(** ** Notions the properties are stated with *)

(** [u[a:b]] and [res[:, a:b]]: basic slices never raise. *)
Definition slice0 {A : Type} (a b : nat) (u : list A) : list A :=
  take (b - a) (drop a u).
Definition slice1 {A : Type} (a b : nat) (res : list (list A)) : list (list A) :=
  slice0 a b <$> res.

(** Depth partition [k] of a volume, and of a projection set. *)
Definition vol_part (pnz k : nat) (u : arr3) : arr3 :=
  slice0 (k * pnz) ((k + 1) * pnz) u.
Definition proj_part (pnz k : nat) (p : arr3) : arr3 :=
  slice1 (k * pnz) ((k + 1) * pnz) p.

(** [np.concatenate([a, b], axis=1)] and [np.concatenate(parts, axis=1)]
    of arrays with [rows] rows each. *)
Definition hcat {A : Type} (a b : list (list A)) : list (list A) :=
  zip_with app a b.
Definition concat1 {A : Type} (rows : nat) (parts : list (list (list A)))
  : list (list A) :=
  foldl hcat (replicate rows []) parts.

(** [fwd_tomo] of each of the first [j] depth partitions of a volume, and
    [adj_tomo] of each of the first [j] depth partitions of a projection
    set: the arrays the batched operators are compared with. *)
Definition fwd_parts (ntheta n pnz : nat) (fwd : arr3 → nat → nat → nat → C)
    (j : nat) (u : arr3) : list arr3 :=
  (λ k, fwd_tomo ntheta n pnz fwd (vol_part pnz k u)) <$> seq 0 j.
Definition adj_parts (n pnz : nat) (adj : arr3 → nat → nat → nat → C)
    (j : nat) (data : arr3) : list arr3 :=
  (λ k, adj_tomo n pnz adj (proj_part pnz k data)) <$> seq 0 j.

(** The inner product of two arrays of one shape, [np.vdot(a, b)]. *)
Definition vdot (a b : arr3) : C := csum (a3mul (a3conj a) b).

(** The direction update with a real inner product in the denominator:
    the real part of [vdot], and hence a real coefficient. *)
Definition real_inner_product (a b : arr3) : Qc := re (vdot a b).
Definition real_direction (d grad grad_prev : arr3) : arr3 :=
  a3add (a3neg grad)
    (a3scale (norm2 grad / (real_inner_product d (a3sub grad grad_prev) + eps)) d).

(** Two arrays of one shape have entries at the same indices. *)
Definition same_shape : arr3 → arr3 → Prop :=
  Forall2 (Forall2 (λ s s' : arr1, length s = length s')).

(** The loop test of [line_search] at step size [g]. *)
Definition increases (minf : arr3 → Qc) (Ru Rd : arr3) (g : Qc) : Prop :=
  minf Ru - minf (a3add Ru (a3scale g Rd)) < 0.

(** ** Small solvers used to run the definitions *)

Module Voxel.

Definition ci (a b : Z) : C := mkC (Qc_of_Z a) (Qc_of_Z b).

(** Entry [(0, 0, 0)] of an array. *)
Definition at000 (x : arr3) : C :=
  match x with
  | ((z :: _) :: _) :: _ => z
  | _ => C0
  end.

(** The identity as forward operator. *)
Definition fwd_id (u : arr3) (i j k : nat) : C := at000 u.
(** A routine that is not its adjoint: multiplication by [1 + i]. *)
Definition adj_skew (p : arr3) (i j k : nat) : C := Cmul (ci 1 1) (at000 p).

Definition vox (a b : Z) : arr3 := [[[ci a b]]].

(** Entry [(i, j, k)] of an array, 0 outside it. *)
Definition at3 (x : arr3) (i j k : nat) : C :=
  match x !! i with
  | Some r =>
      match r !! j with
      | Some s => match s !! k with Some z => z | None => C0 end
      | None => C0
      end
  | None => C0
  end.

(** One angle, width 1: the projection of a slice is its only voxel, and
    the adjoint puts it back. *)
Definition fwd_col (u : arr3) (i j k : nat) : C := at3 u j 0 0.
Definition adj_col (p : arr3) (i j k : nat) : C := at3 p 0 i 0.

(** Volumes of four and of three slices, with matching projection sets. *)
Definition vol4 : arr3 := [[[ci 1 0]]; [[ci 2 1]]; [[ci 3 0]]; [[ci 0 (-1)]]].
Definition proj4 : arr3 := [[[ci 0 1]; [ci 1 1]; [ci 2 0]; [ci 1 0]]].

Definition vol3 : arr3 := [[[ci 1 0]]; [[ci 2 1]]; [[ci 3 0]]].
Definition proj3 : arr3 := [[[ci 0 1]; [ci 1 1]; [ci 2 0]]].

(** One partition of two slices, and its projections. *)
Definition vol2 : arr3 := [[[ci 1 0]]; [[ci 2 1]]].
Definition proj2 : arr3 := [[[ci 0 1]; [ci 1 1]]].

Definition heap1 (v : arr3) : heap := <[1%positive := v]> ∅.

End Voxel.

(** Objectives on Python floats, for [line_search] called with numbers. *)
Module Scalar.

(** [lambda x: 0.0 if x == x else 1.0]: 1 on NaN, 0 elsewhere. *)
Definition nan_flag (x : float) : float :=
  if PrimFloat.eqb x x then 0%float else 1%float.

(** [lambda x: x*x] *)
Definition square (x : float) : float := PrimFloat.mul x x.

End Scalar.

(** * Properties *)

(** ** Arithmetic on [Qc] through [Q] *)

Lemma Qeq_of_eq (a b : Q) : a = b → (a == b)%Q.
Proof. intros ->. reflexivity. Qed.
Lemma this_plus (x y : Qc) : (this (x + y) == this x + this y)%Q.
Proof. apply Qred_correct. Qed.
Lemma this_mult (x y : Qc) : (this (x * y) == this x * this y)%Q.
Proof. apply Qred_correct. Qed.
Lemma this_opp (x : Qc) : (this (- x) == - this x)%Q.
Proof. apply Qred_correct. Qed.
Lemma this_minus (x y : Qc) : (this (x - y) == this x - this y)%Q.
Proof. unfold Qcminus. rewrite this_plus, this_opp. reflexivity. Qed.
Lemma this_inv (x : Qc) : (this (/ x) == / this x)%Q.
Proof. apply Qred_correct. Qed.
Lemma this_div (x y : Qc) : (this (x / y) == this x / this y)%Q.
Proof. unfold Qcdiv. rewrite this_mult, this_inv. reflexivity. Qed.
Lemma this_half : (this half == Qmake 1 2)%Q.
Proof. reflexivity. Qed.
Lemma this_0 : (this 0 == 0)%Q.
Proof. reflexivity. Qed.
Lemma this_1 : (this 1 == 1)%Q.
Proof. reflexivity. Qed.

Create Rewrite HintDb qc2q.
#[global] Hint Rewrite this_plus this_mult this_opp this_minus this_inv this_div
  this_half this_0 this_1 : qc2q.

(** Turns a goal of linear or polynomial arithmetic over [Qc] into one
    over [Q], where [lra] and [nra] apply. *)
Ltac qc2q :=
  repeat match goal with
  | H : Qcle _ _ |- _ => unfold Qcle in H
  | H : Qclt _ _ |- _ => unfold Qclt in H
  | H : @eq Qc _ _ |- _ => apply (f_equal this) in H; apply Qeq_of_eq in H
  | H : ¬ Qclt _ _ |- _ => apply Qcnot_lt_le in H
  | H : ¬ Qcle _ _ |- _ => apply Qcnot_le_lt in H
  end;
  repeat match goal with
  | |- Qcle _ _ => unfold Qcle
  | |- Qclt _ _ => unfold Qclt
  | |- @eq Qc _ _ => apply Qc_is_canon
  | |- ¬ Qclt _ _ => apply Qcle_not_lt
  | |- ¬ Qcle _ _ => apply Qclt_not_le
  end;
  autorewrite with qc2q in *.

Lemma C_eq (a b : C) : re a = re b → im a = im b → a = b.
Proof. destruct a, b; simpl; congruence. Qed.

Lemma half_pow_pos (k : nat) : 0 < half ^ k.
Proof.
  induction k as [|k IH]; [done|].
  change (half ^ S k) with (half * half ^ k).
  qc2q. lra.
Qed.

Lemma half_pow_le (j k : nat) : (j ≤ k)%nat → half ^ k <= half ^ j.
Proof.
  induction 1 as [|k _ IH]; [apply Qcle_refl|].
  change (half ^ S k) with (half * half ^ k).
  pose proof (half_pow_pos k). qc2q. lra.
Qed.

(** ** The result monad and loops *)

Lemma for_each_app {A S : Type} (body : A → S → result S) (l1 l2 : list A) (s : S) :
  for_each body (l1 ++ l2) s = s' ← for_each body l1 s; for_each body l2 s'.
Proof.
  revert s. induction l1 as [|x l1 IH]; intros s; simpl; [done|].
  destruct (body x s); simpl; auto.
Qed.

Lemma for_each_snoc {A S : Type} (body : A → S → result S) (l : list A) (x : A) (s : S) :
  for_each body (l ++ [x]) s = s' ← for_each body l s; body x s'.
Proof.
  rewrite for_each_app. destruct (for_each body l s); simpl; [|done..].
  by destruct (body x a).
Qed.

(** ** Line search *)

Lemma line_search_done fuel minf gamma0 Ru Rd g :
  line_search fuel minf gamma0 Ru Rd = Done g →
  ∃ k : nat, (k < fuel)%nat ∧ g = gamma0 * half ^ k ∧
    ¬ increases minf Ru Rd g ∧
    ∀ j : nat, (j < k)%nat → increases minf Ru Rd (gamma0 * half ^ j).
Proof.
  revert gamma0. induction fuel as [|fuel IH]; intros gamma0; simpl; [done|].
  case_bool_decide as Hc.
  - intros Hg. destruct (IH _ Hg) as (k & Hk & -> & Hok & Hj).
    exists (S k). split; [lia|]. split.
    { change (half ^ S k) with (half * half ^ k). ring. }
    split; [done|]. intros [|j] Hlt.
    + replace (gamma0 * half ^ 0) with gamma0 by (simpl; ring). exact Hc.
    + replace (gamma0 * half ^ S j) with (gamma0 * half * half ^ j)
        by (change (half ^ S j) with (half * half ^ j); ring).
      apply Hj. lia.
  - intros [= <-]. exists 0%nat. split; [lia|]. split; [simpl; ring|].
    split; [done|]. intros j Hj. lia.
Qed.

Lemma line_search_diverges fuel minf gamma0 Ru Rd :
  (∀ k : nat, increases minf Ru Rd (gamma0 * half ^ k)) →
  line_search fuel minf gamma0 Ru Rd = OutOfFuel.
Proof.
  revert gamma0. induction fuel as [|fuel IH]; intros gamma0 Hall; simpl; [done|].
  rewrite bool_decide_eq_true_2.
  - apply IH. intros k.
    replace (gamma0 * half * half ^ k) with (gamma0 * half ^ S k)
      by (change (half ^ S k) with (half * half ^ k); ring).
    apply Hall.
  - specialize (Hall 0%nat). 
    replace (gamma0 * half ^ 0) with gamma0 in Hall by (simpl; ring). exact Hall.
Qed.

Lemma line_search_finds fuel minf gamma0 Ru Rd (k : nat) :
  (k < fuel)%nat →
  ¬ increases minf Ru Rd (gamma0 * half ^ k) →
  ∃ g, line_search fuel minf gamma0 Ru Rd = Done g.
Proof.
  revert gamma0 k. induction fuel as [|fuel IH]; intros gamma0 k Hk Hok; [lia|].
  simpl. case_bool_decide as Hc; [|eauto].
  destruct k as [|k].
  { exfalso. apply Hok. replace (gamma0 * half ^ 0) with gamma0 by (simpl; ring). done. }
  apply (IH _ k); [lia|].
  replace (gamma0 * half * half ^ k) with (gamma0 * half ^ S k)
    by (change (half ^ S k) with (half * half ^ k); ring).
  done.
Qed.



(** In exact arithmetic the halving loop need not stop: with the
    objective [minf(x) = |x|^2], [Ru = 0] and [Rd = 1], every step of the
    halving sequence increases the objective, and [line_search] runs out of
    any amount of fuel.  (With a binary64 step the same search returns,
    see [line_search_square_538].) *)
Lemma line_search_exact_diverges :
  ∃ (minf : arr3 → Qc) (Ru Rd : arr3),
    (∀ k : nat, minf Ru < minf (a3add Ru (a3scale (1 * half ^ k) Rd))) ∧
    (∀ fuel : nat, line_search fuel minf 1 Ru Rd = OutOfFuel).
Proof.
  exists (minf (Voxel.vox 0 0)), (Voxel.vox 0 0), (Voxel.vox 1 0).
  assert (Hall : ∀ k : nat,
    minf (Voxel.vox 0 0) (Voxel.vox 0 0)
    < minf (Voxel.vox 0 0)
        (a3add (Voxel.vox 0 0) (a3scale (1 * half ^ k) (Voxel.vox 1 0)))).
  { intros k. pose proof (half_pow_pos k) as Hpos.
    generalize dependent (half ^ k). intros h Hpos.
    cbv [minf norm2 norm2_2 norm2_1 a3sub a3add a3scale zip3 map3 Voxel.vox
         foldr zip_with fmap list_fmap Cabs2 Csub Cadd Cscale re im Voxel.ci].
    qc2q. cbn [this Qc_of_Z]. unfold inject_Z. nra. }
  split; [exact Hall|].
  intros fuel. apply line_search_diverges. intros k. unfold increases.
  specialize (Hall k). qc2q. lra.
Qed.

(** ** Line search with a binary64 step *)

Section Binary64Search.
Context {T : Type} (add : T → T → T) (scale : float → T → T).

Local Abbreviation increases := (Binary64.increases add scale).
Local Abbreviation line_search := (Binary64.line_search add scale).

(** A test that holds along the whole halving sequence keeps the loop
    running. *)
Lemma line_search_float_diverges (minf : T → float) (Ru Rd : T) fuel gamma0 :
  (∀ k : nat, increases minf Ru Rd (Binary64.halved k gamma0) = true) →
  line_search fuel minf gamma0 Ru Rd = OutOfFuel.
Proof.
  revert gamma0. induction fuel as [|fuel IH]; intros gamma0 Hall; [done|].
  pose proof (Hall 0%nat) as H0. cbn [Binary64.halved] in H0.
  cbn [Binary64.line_search]. rewrite H0. apply IH.
  intros k. apply (Hall (S k)).
Qed.

(** Once the step is a value at which the test fails, the loop has
    returned. *)
Lemma line_search_float_reaches (minf : T → float) (Ru Rd : T) (K : nat) gamma0 :
  increases minf Ru Rd (Binary64.halved K gamma0) = false →
  ∃ k : nat, (k ≤ K)%nat ∧
    ∀ fuel : nat, (k < fuel)%nat →
      line_search fuel minf gamma0 Ru Rd = Done (Binary64.halved k gamma0).
Proof.
  revert gamma0. induction K as [|K IH]; intros gamma0 HK.
  { exists 0%nat. split; [done|]. intros [|fuel] Hf; [lia|].
    cbn [Binary64.line_search Binary64.halved] in *. by rewrite HK. }
  destruct (increases minf Ru Rd gamma0) eqn:Htest.
  - destruct (IH _ HK) as (k & Hk & Hrun). exists (S k). split; [lia|].
    intros [|fuel] Hf; [lia|].
    cbn [Binary64.line_search Binary64.halved]. rewrite Htest. apply Hrun. lia.
  - exists 0%nat. split; [lia|]. intros [|fuel] Hf; [lia|].
    cbn [Binary64.line_search Binary64.halved]. by rewrite Htest.
Qed.

End Binary64Search.

(** [x - x] is a zero or NaN, never negative. *)
Lemma float_sub_diag_not_neg (m : float) :
  PrimFloat.ltb (PrimFloat.sub m m) 0%float = false.
Proof.
  rewrite ltb_spec, sub_spec.
  destruct (Prim2SF m) as [[]|[]| |s mm e]; try reflexivity.
  unfold SF64sub, SFsub. rewrite Z.sub_diag. reflexivity.
Qed.

(** NaN absorbs the operations of [Ru + gamma*Rd]. *)
Lemma float_nan_step (Ru gamma : float) :
  Prim2SF (PrimFloat.add Ru (PrimFloat.mul gamma nan)) = S754_nan.
Proof.
  rewrite add_spec, mul_spec.
  replace (SF64mul (Prim2SF gamma) (Prim2SF nan)) with S754_nan
    by (by destruct (Prim2SF gamma)).
  by destruct (Prim2SF Ru) as [[]|[]| |].
Qed.

Lemma nan_flag_nan (x : float) : Prim2SF x = S754_nan → Scalar.nan_flag x = 1%float.
Proof.
  intros Hx. unfold Scalar.nan_flag. by rewrite FloatAxioms.eqb_spec, Hx.
Qed.

(** One is halved to zero in 1075 passes, and not before. *)
Lemma halved_one_underflows :
  Binary64.halved 1075 1%float = 0%float ∧
  PrimFloat.ltb 0%float (Binary64.halved 1074 1%float) = true.
Proof. split; vm_compute; reflexivity. Qed.

(** C5.  [line_search] has no termination bound, also with the step a
    binary64 float that underflows: whenever the objective is larger at
    [Ru + gamma*Rd] than at [Ru] for every [gamma] of the halving sequence,
    the loop is still running after any number of passes; and there are
    such inputs.  With Python floats as operands, [Rd] NaN and an objective
    that is 1 on NaN and 0 elsewhere, [Ru + gamma*Rd] is NaN for every
    [gamma], zero included, so the test never fails. *)
Theorem line_search_may_diverge :
  (∀ (T : Type) (add : T → T → T) (scale : float → T → T)
     (minf : T → float) (Ru Rd : T) (gamma0 : float),
     (∀ k : nat,
        Binary64.increases add scale minf Ru Rd (Binary64.halved k gamma0) = true) →
     ∀ fuel : nat,
       Binary64.line_search add scale fuel minf gamma0 Ru Rd = OutOfFuel) ∧
  (∀ gamma : float,
     PrimFloat.ltb (Scalar.nan_flag 0%float)
       (Scalar.nan_flag (PrimFloat.add 0%float (PrimFloat.mul gamma nan)))
     = true) ∧
  (∀ fuel : nat,
     Binary64.line_search PrimFloat.add PrimFloat.mul fuel Scalar.nan_flag
       1%float 0%float nan = OutOfFuel).
Proof.
  split; [|split].
  - intros T add scale minf Ru Rd gamma0 Hall fuel.
    by apply line_search_float_diverges.
  - intros gamma. by rewrite (nan_flag_nan _ (float_nan_step _ _)).
  - intros fuel. apply line_search_float_diverges. intros k.
    unfold Binary64.increases.
    by rewrite (nan_flag_nan _ (float_nan_step _ _)).
Qed.

(** ** The conjugate-gradient loop *)

Section CG.

Context (ntheta n pnz : nat).
Context (fwd adj : arr3 → nat → nat → nat → C).

Local Abbreviation fwd_tomo := (fwd_tomo ntheta n pnz fwd).
Local Abbreviation adj_tomo := (adj_tomo n pnz adj).
Local Abbreviation cg_run := (cg_run ntheta n pnz fwd adj).
Local Abbreviation cg_body := (cg_body ntheta n pnz fwd adj).
Local Abbreviation cg_tomo := (cg_tomo ntheta n pnz fwd adj).

Lemma cg_run_S fuel xi0 u i :
  cg_run fuel xi0 u (S i) = s ← cg_run fuel xi0 u i; cg_body fuel xi0 i s.
Proof. unfold cg_run. by rewrite seq_S, for_each_snoc. Qed.

(** C1.  Pass [i] of [cg_tomo] turns the loop variables [s] left by the
    passes before it into: [Ru = fwd_tomo(u)],
    [grad = adj_tomo(Ru - xi0) / (ntheta * n / 2)], the direction [d] of
    the pass, [gamma = 0.5 * line_search(minf, 1, Ru, fwd_tomo(d))] with
    [minf(x) = |x - xi0|^2], the new iterate [u + gamma * d], and [grad]
    kept as the previous gradient.  [cg_tomo] returns the iterate after
    [titer] such passes. *)
Theorem cg_tomo_recurrence fuel xi0 u i :
  cg_run fuel xi0 u (S i) =
    (s ← cg_run fuel xi0 u i;
     let Ru := fwd_tomo (cg_u s) in
     let grad :=
       a3divr (adj_tomo (a3sub Ru xi0)) (Qc_of_nat ntheta * Qc_of_nat n / 2) in
     d ← cg_direction i (cg_hist s) grad;
     g ← line_search fuel (λ x, norm2 (a3sub x xi0)) 1 Ru (fwd_tomo d);
     Done (CgVars (a3add (cg_u s) (a3scale (half * g) d)) (Some (d, grad))))
  ∧ cg_run fuel xi0 u 0 = Done (CgVars u None)
  ∧ ∀ titer, cg_tomo fuel xi0 u titer = s ← cg_run fuel xi0 u titer; Done (cg_u s).
Proof. split; [apply cg_run_S|]. by split. Qed.

Lemma cg_run_hist fuel xi0 u i s :
  cg_run fuel xi0 u (S i) = Done s → is_Some (cg_hist s).
Proof.
  rewrite cg_run_S. destruct (cg_run fuel xi0 u i) as [s0| |]; simpl; [|done..].
  unfold cg_body. destruct (cg_direction _ _ _) as [d| |]; simpl; [|done..].
  destruct (line_search _ _ _ _ _) as [g| |]; simpl; [|done..].
  intros [= <-]. simpl. eauto.
Qed.

(** The direction as line 100 computes it, for any native routines: in
    pass [i] of [cg_tomo] it is [-grad] when [i = 0], and for [i >= 1] it is
    [-grad + (|grad|^2 / (sum(conj(d) * (grad - grad_prev)) + 1e-32)) * d]
    with [d], [grad_prev] the direction and gradient of the pass before;
    the denominator is the complex sum [vdot]. *)
Lemma cg_direction_update fuel xi0 u i s s' :
  cg_run fuel xi0 u i = Done s →
  cg_run fuel xi0 u (S i) = Done s' →
  let grad :=
    a3divr (adj_tomo (a3sub (fwd_tomo (cg_u s)) xi0))
      (Qc_of_nat ntheta * Qc_of_nat n / 2) in
  ∃ d' : arr3,
    cg_hist s' = Some (d', grad) ∧
    (i = 0%nat → d' = a3neg grad) ∧
    ((1 ≤ i)%nat →
       ∃ d grad_prev : arr3,
         cg_hist s = Some (d, grad_prev) ∧
         d' = a3add (a3neg grad)
                (a3cmul
                   (Cdiv (C_of_Qc (norm2 grad))
                      (Cadd (vdot d (a3sub grad grad_prev)) (C_of_Qc eps)))
                   d)).
Proof.
  intros Hs Hs' grad. rewrite cg_run_S, Hs in Hs'. simpl in Hs'.
  unfold cg_body in Hs'. fold grad in Hs'.
  destruct (cg_direction i (cg_hist s) _) as [d'| |] eqn:Hd; simpl in Hs'; [|done..].
  destruct (line_search _ _ _ _ _) as [g| |]; simpl in Hs'; [|done..].
  injection Hs' as <-. exists d'. split; [done|].
  unfold cg_direction in Hd. split.
  - intros ->. simpl in Hd. by injection Hd as <-.
  - intros Hi. destruct i as [|j]; [lia|].
    destruct (cg_run_hist _ _ _ _ _ Hs) as [[d grad_prev] Hh].
    exists d, grad_prev. split; [done|].
    rewrite Hh in Hd. simpl in Hd. by injection Hd as <-.
Qed.

End CG.

Lemma vox_eq (a b a' b' : Qc) :
  a = a' → b = b' → [[[mkC a b]]] = [[[mkC a' b']]].
Proof. by intros -> ->. Qed.

(** Natives that are not an adjoint pair can make the sum
    [conj(d) * (grad - grad_prev)] complex.  One voxel, forward operator the
    identity, [adj] the multiplication by [1 + i], [xi0 = 0], [u = 1]: pass 0
    leaves [d = -2 - 2i] and [grad_prev = 2 + 2i]; in pass 1 [grad = 2], the
    sum is [4 + 4i], and the new direction is not the one a real inner
    product gives.  Over an adjoint pair the sum is real
    ([cg_denominator_real]). *)
Lemma cg_direction_not_real :
  ∃ (s1 s2 : cg_vars) (d grad_prev d' grad : arr3),
    cg_run 1 1 1 Voxel.fwd_id Voxel.adj_skew 3 (Voxel.vox 0 0) (Voxel.vox 1 0) 1
      = Done s1 ∧
    cg_run 1 1 1 Voxel.fwd_id Voxel.adj_skew 3 (Voxel.vox 0 0) (Voxel.vox 1 0) 2
      = Done s2 ∧
    cg_hist s1 = Some (d, grad_prev) ∧
    cg_hist s2 = Some (d', grad) ∧
    d = Voxel.vox (-2) (-2) ∧ grad_prev = Voxel.vox 2 2 ∧ grad = Voxel.vox 2 0 ∧
    vdot d (a3sub grad grad_prev) = Voxel.ci 4 4 ∧
    d' ≠ real_direction d grad grad_prev.
Proof.
  do 6 eexists. split; [vm_compute; reflexivity|].
  split; [vm_compute; reflexivity|].
  split; [reflexivity|]. split; [reflexivity|].
  split. { vm_compute. apply vox_eq; by apply Qc_is_canon. }
  split. { vm_compute. apply vox_eq; by apply Qc_is_canon. }
  split. { vm_compute. apply vox_eq; by apply Qc_is_canon. }
  split. { apply C_eq; by apply Qc_is_canon. }
  intros H. apply (f_equal (λ x, this (im (Voxel.at000 x)))) in H.
  vm_compute in H. discriminate H.
Qed.

(** The direction update of pass 1 on the one-voxel solver. *)
Lemma cg_direction_update_witness :
  ∃ s s' : cg_vars,
    cg_run 1 1 1 Voxel.fwd_id Voxel.adj_skew 3 (Voxel.vox 0 0) (Voxel.vox 1 0) 1
      = Done s ∧
    cg_run 1 1 1 Voxel.fwd_id Voxel.adj_skew 3 (Voxel.vox 0 0) (Voxel.vox 1 0) 2
      = Done s' ∧
    let grad :=
      a3divr (adj_tomo 1 1 Voxel.adj_skew
                (a3sub (fwd_tomo 1 1 1 Voxel.fwd_id (cg_u s)) (Voxel.vox 0 0)))
        (Qc_of_nat 1 * Qc_of_nat 1 / 2) in
    ∃ d' : arr3,
      cg_hist s' = Some (d', grad) ∧
      (1%nat = 0%nat → d' = a3neg grad) ∧
      ((1 ≤ 1)%nat →
         ∃ d grad_prev : arr3,
           cg_hist s = Some (d, grad_prev) ∧
           d' = a3add (a3neg grad)
                  (a3cmul
                     (Cdiv (C_of_Qc (norm2 grad))
                        (Cadd (vdot d (a3sub grad grad_prev)) (C_of_Qc eps)))
                     d)).
Proof.
  do 2 eexists. split; [vm_compute; reflexivity|].
  split; [vm_compute; reflexivity|].
  apply (cg_direction_update 1 1 1 Voxel.fwd_id Voxel.adj_skew 3
           (Voxel.vox 0 0) (Voxel.vox 1 0) 1);
    vm_compute; reflexivity.
Defined.


(** ** Index arrays over a contiguous range *)

Section Indexing.
Context {A : Type}.
Implicit Types (l v : list A) (res : list (list A)).

Lemma take_ids_seq l (a m : nat) :
  (a + m ≤ length l)%nat → take_ids l (seq a m) = Done (take m (drop a l)).
Proof.
  revert a. induction m as [|m IH]; intros a Hlen; simpl; [done|].
  destruct (lookup_lt_is_Some_2 l a ltac:(lia)) as [x Hx].
  unfold getitem. rewrite Hx. simpl.
  rewrite IH by lia. simpl.
  by rewrite (drop_S _ _ _ Hx).
Qed.

Lemma take_ids_arange l (a b : nat) :
  (a ≤ b)%nat → (b ≤ length l)%nat →
  take_ids l (arange a b) = Done (slice0 a b l).
Proof. intros. unfold arange, slice0. apply take_ids_seq. lia. Qed.

Lemma take_ids1_arange res (a b : nat) :
  (a ≤ b)%nat → Forall (λ row, (b ≤ length row)%nat) res →
  take_ids1 res (arange a b) = Done (slice1 a b res).
Proof.
  intros Hab. unfold take_ids1, slice1.
  induction 1 as [|row res Hrow _ IH]; simpl; [done|].
  rewrite take_ids_arange by done. simpl. by rewrite IH.
Qed.

Lemma assign_each_seq l v (a : nat) :
  (a + length v ≤ length l)%nat →
  assign_each l (seq a (length v)) v
    = Done (take a l ++ v ++ drop (a + length v) l).
Proof.
  revert l a. induction v as [|x v IH]; intros l a Hlen; simpl in *.
  { by rewrite Nat.add_0_r, take_drop. }
  unfold setitem. rewrite decide_True by lia. simpl.
  rewrite IH by (rewrite length_insert; lia).
  f_equal.
  rewrite (take_S_r _ _ x) by (apply list_lookup_insert_eq; lia).
  rewrite take_insert_ge by lia.
  rewrite drop_insert_lt by lia.
  rewrite <- app_assoc. simpl. do 4 f_equal. lia.
Qed.

Lemma assign_ids_arange l v (a b : nat) :
  (a ≤ b)%nat → (b ≤ length l)%nat → length v = (b - a)%nat →
  assign_ids l (arange a b) v = Done (take a l ++ v ++ drop b l).
Proof.
  intros Hab Hb Hv. unfold assign_ids, arange.
  rewrite length_seq, decide_True by done.
  rewrite <- Hv, assign_each_seq by lia. do 4 f_equal. lia.
Qed.

Lemma assign_ids1_arange res (w : list (list A)) (a b : nat) :
  (a ≤ b)%nat → length w = length res →
  Forall (λ row, (b ≤ length row)%nat) res →
  Forall (λ vrow, length vrow = (b - a)%nat) w →
  assign_ids1 res (arange a b) w
    = Done (zip_with (λ row vrow, take a row ++ vrow ++ drop b row) res w).
Proof.
  intros Hab Hlen Hres Hw. unfold assign_ids1. rewrite decide_True by done.
  revert w Hlen Hw. induction Hres as [|row res Hrow _ IH]; intros w Hlen Hw.
  { by destruct w. }
  destruct w as [|vrow w]; [done|]. simpl.
  apply Forall_cons in Hw as [Hv Hw].
  rewrite assign_ids_arange by done. simpl.
  rewrite IH; [done| |done]. simpl in Hlen. lia.
Qed.

End Indexing.

(** ** Shapes *)

Lemma zeros3_shape (a b c : nat) : shape3 a b c (zeros3 a b c).
Proof.
  split; [apply length_replicate|].
  apply Forall_replicate. split; [apply length_replicate|].
  apply Forall_replicate, length_replicate.
Qed.

Lemma fill3_shape (a b c : nat) (res : arr3) f :
  shape3 a b c res → shape3 a b c (fill3 res f).
Proof.
  intros [Hlen Hrows]. split; [by rewrite <- Hlen; apply length_imap|].
  apply Forall_lookup. intros i r Hr.
  apply list_lookup_imap_Some in Hr as (r0 & Hr0 & ->).
  destruct (proj1 (Forall_lookup _ _) Hrows i r0 Hr0) as [Hb Hc].
  split; [by rewrite length_imap|].
  apply Forall_lookup. intros j s Hs.
  apply list_lookup_imap_Some in Hs as (s0 & Hs0 & ->).
  rewrite length_imap. exact (proj1 (Forall_lookup _ _) Hc j s0 Hs0).
Qed.

Lemma shape3_length (a b c : nat) (x : arr3) : shape3 a b c x → length x = a.
Proof. by intros [? _]. Qed.

Lemma shape3_rows (a b c : nat) (x : arr3) :
  shape3 a b c x → Forall (λ r, length r = b) x.
Proof. intros [_ H]. eapply Forall_impl; [exact H|]. by intros r [? _]. Qed.

(** ** Concatenation along the second axis *)

Section Hcat.
Context {A : Type}.
Implicit Types (P F : list (list A)).

Lemma length_hcat P F : length P = length F → length (hcat P F) = length P.
Proof. intros. unfold hcat. rewrite length_zip_with. lia. Qed.

Lemma hcat_rows P F (a m : nat) :
  Forall (λ r, length r = a) P → Forall (λ r, length r = m) F →
  Forall (λ r, length r = (a + m)%nat) (hcat P F).
Proof.
  intros HP. revert F. induction HP as [|p P Hp _ IH]; intros F HF; [constructor|].
  destruct HF as [|f F Hf HF]; simpl; constructor; [|by apply IH].
  rewrite length_app. lia.
Qed.

Lemma hcat_nil_r (rows : nat) P :
  length P = rows → hcat P (replicate rows []) = P.
Proof.
  intros <-. unfold hcat.
  induction P as [|p P IH]; simpl; [done|]. by rewrite app_nil_r, IH.
Qed.

Lemma concat1_snoc (rows : nat) (parts : list (list (list A))) F :
  concat1 rows (parts ++ [F]) = hcat (concat1 rows parts) F.
Proof. unfold concat1. by rewrite foldl_app. Qed.

Lemma concat1_shape (rows m : nat) (parts : list (list (list A))) :
  Forall (λ F, length F = rows ∧ Forall (λ r, length r = m) F) parts →
  length (concat1 rows parts) = rows ∧
  Forall (λ r, length r = (length parts * m)%nat) (concat1 rows parts).
Proof.
  induction parts as [|F parts IH] using rev_ind; intros Hparts.
  { split; [apply length_replicate|]. by apply Forall_replicate. }
  apply Forall_app in Hparts as [Hparts HF].
  apply Forall_singleton in HF as [HlenF HrowsF].
  destruct (IH Hparts) as [Hlen Hrows].
  rewrite concat1_snoc. split.
  - rewrite length_hcat; lia.
  - rewrite length_app. simpl.
    replace ((length parts + 1) * m)%nat with (length parts * m + m)%nat by lia.
    by apply hcat_rows.
Qed.

(** Writing [F] over the columns [a .. a+m) of an array whose columns from
    [a] on are still the initial value [z]. *)
Lemma assign_rows_hcat P F (z : A) (rows a m t : nat) :
  length P = rows → length F = rows →
  Forall (λ r, length r = a) P → Forall (λ r, length r = m) F →
  zip_with (λ row vrow, take a row ++ vrow ++ drop (a + m) row)
    (hcat P (replicate rows (replicate (m + t) z))) F
  = hcat (hcat P F) (replicate rows (replicate t z)).
Proof.
  intros <- Hlen HP. revert F Hlen.
  induction HP as [|p P Hp _ IH]; intros F Hlen HF; [done|].
  destruct HF as [|f F Hf HF]; [done|]. simpl in *.
  f_equal; [|apply IH; [lia|done]].
  rewrite take_app_length' by done.
  rewrite drop_app_ge by lia.
  rewrite drop_replicate. rewrite <- app_assoc. do 3 f_equal. lia.
Qed.

Lemma slice1_hcat_l P F (a b m : nat) :
  Forall (λ r, length r = m) P → length P = length F → (b ≤ m)%nat →
  slice1 a b (hcat P F) = slice1 a b P.
Proof.
  intros HP. revert F. unfold slice1, slice0.
  induction HP as [|p P Hp _ IH]; intros F Hlen Hb; [done|].
  destruct F as [|f F]; [done|]. simpl in *.
  rewrite IH by lia. f_equal.
  destruct (decide (a ≤ m)%nat).
  - rewrite drop_app_le by lia. rewrite take_app_le; [done|].
    rewrite length_drop. lia.
  - by replace (b - a)%nat with 0%nat by lia.
Qed.

Lemma slice1_hcat_r P F (m k : nat) :
  Forall (λ r, length r = m) P → Forall (λ r, length r = k) F →
  length P = length F →
  slice1 m (m + k) (hcat P F) = F.
Proof.
  intros HP. revert F. unfold slice1, slice0.
  induction HP as [|p P Hp _ IH]; intros F HF Hlen.
  { by destruct F. }
  destruct HF as [|f F Hf HF]; [done|]. simpl in *.
  rewrite IH by (done || lia). f_equal.
  rewrite drop_app_length' by done. apply take_ge. lia.
Qed.

Lemma slice1_concat1 (rows m k : nat) (parts : list (list (list A))) F :
  Forall (λ F, length F = rows ∧ Forall (λ r, length r = m) F) parts →
  parts !! k = Some F →
  slice1 (k * m) (k * m + m) (concat1 rows parts) = F.
Proof.
  revert k F. induction parts as [|G parts IH] using rev_ind; intros k F Hparts Hk.
  { done. }
  apply Forall_app in Hparts as [Hparts HG].
  apply Forall_singleton in HG as [HlenG HrowsG].
  destruct (concat1_shape rows m parts Hparts) as [Hlen Hrows].
  rewrite concat1_snoc.
  destruct (decide (k < length parts)%nat) as [Hlt|Hge].
  - rewrite lookup_app_l in Hk by done.
    rewrite (slice1_hcat_l _ _ _ _ (length parts * m)); [by apply IH|done|lia|nia].
  - rewrite lookup_app_r in Hk by lia.
    apply list_lookup_singleton_Some in Hk as [Hk0 <-].
    assert (k = length parts) as -> by lia.
    by apply slice1_hcat_r; [| |lia].
Qed.

End Hcat.

Lemma slice0_take {A : Type} (a b c : nat) (u : list A) :
  (b ≤ c)%nat → slice0 a b (take c u) = slice0 a b u.
Proof.
  intros Hbc. unfold slice0.
  rewrite skipn_firstn_comm, take_take. f_equal. lia.
Qed.

Lemma slice1_slice1 {A : Type} (a b c : nat) (data : list (list A)) :
  (b ≤ c)%nat → slice1 a b (slice1 0 c data) = slice1 a b data.
Proof.
  intros Hbc. unfold slice1. rewrite <- list_fmap_compose.
  apply list_fmap_ext. intros i row _. simpl.
  unfold slice0 at 2. rewrite drop_0, Nat.sub_0_r. by apply slice0_take.
Qed.

Lemma hcat_nil_l {A : Type} (rows : nat) (X : list (list A)) :
  length X = rows → hcat (replicate rows []) X = X.
Proof.
  intros <-. unfold hcat. induction X as [|x X IH]; simpl; [done|]. by rewrite IH.
Qed.

Lemma length_concat_same {A : Type} (m : nat) (parts : list (list A)) :
  Forall (λ F, length F = m) parts → length (concat parts) = (length parts * m)%nat.
Proof.
  induction 1 as [|F parts HF _ IH]; simpl; [done|].
  rewrite length_app. lia.
Qed.

(** ** The batched operators *)

Section Batch.
Context (ntheta nz n pnz : nat).
Context (fwd adj : arr3 → nat → nat → nat → C).

Local Abbreviation fwd_tomo := (fwd_tomo ntheta n pnz fwd).
Local Abbreviation adj_tomo := (adj_tomo n pnz adj).
Local Abbreviation fwd_tomo_batch := (fwd_tomo_batch ntheta nz n pnz fwd).
Local Abbreviation adj_tomo_batch := (adj_tomo_batch nz n pnz adj).
Local Abbreviation fwd_parts := (fwd_parts ntheta n pnz fwd).
Local Abbreviation adj_parts := (adj_parts n pnz adj).

Lemma fwd_tomo_shape u : shape3 ntheta pnz n (fwd_tomo u).
Proof. apply fill3_shape, zeros3_shape. Qed.

Lemma adj_tomo_shape data : shape3 pnz n n (adj_tomo data).
Proof. apply fill3_shape, zeros3_shape. Qed.

Lemma fwd_parts_shape j u :
  Forall (λ F, length F = ntheta ∧ Forall (λ r, length r = pnz) F) (fwd_parts j u).
Proof.
  apply Forall_fmap, Forall_forall. intros k _. simpl.
  pose proof (fwd_tomo_shape (vol_part pnz k u)) as Hs.
  split; [exact (shape3_length _ _ _ _ Hs) | exact (shape3_rows _ _ _ _ Hs)].
Qed.

Lemma adj_parts_shape j data :
  Forall (λ F, length F = pnz) (adj_parts j data).
Proof.
  apply Forall_fmap, Forall_forall. intros k _. simpl.
  exact (shape3_length _ _ _ _ (adj_tomo_shape _)).
Qed.

Lemma length_fwd_parts j u : length (fwd_parts j u) = j.
Proof. unfold fwd_parts. by rewrite length_fmap, length_seq. Qed.

Lemma length_adj_parts j data : length (adj_parts j data) = j.
Proof. unfold adj_parts. by rewrite length_fmap, length_seq. Qed.

Lemma fwd_parts_S j u :
  fwd_parts (S j) u = fwd_parts j u ++ [fwd_tomo (vol_part pnz j u)].
Proof. unfold fwd_parts. by rewrite seq_S, fmap_app. Qed.

Lemma adj_parts_S j data :
  adj_parts (S j) data = adj_parts j data ++ [adj_tomo (proj_part pnz j data)].
Proof. unfold adj_parts. by rewrite seq_S, fmap_app. Qed.

(** The loop of [fwd_tomo_batch] after [j] passes: the results of the
    first [j] partitions side by side, then the zeros [res] started with. *)
Lemma fwd_batch_loop (u : arr3) (j : nat) :
  (j * pnz ≤ nz)%nat → (j * pnz ≤ length u)%nat →
  for_each (λ k res,
      let ids := arange (k * pnz) ((k + 1) * pnz) in
      u_gpu ← take_ids u ids;
      let res_gpu := fwd_tomo u_gpu in
      assign_ids1 res ids res_gpu)
    (seq 0 j) (zeros3 ntheta nz n)
  = Done (hcat (concat1 ntheta (fwd_parts j u))
            (zeros3 ntheta (nz - j * pnz) n)).
Proof.
  induction j as [|j IH]; intros Hnz Hu.
  { simpl. rewrite Nat.sub_0_r. f_equal. unfold concat1. simpl.
    symmetry. apply hcat_nil_l, length_replicate. }
  replace (nz - S j * pnz)%nat with (nz - j * pnz - pnz)%nat by lia.
  set (t := (nz - j * pnz - pnz)%nat).
  rewrite fwd_parts_S, concat1_snoc.
  rewrite seq_S, for_each_snoc, IH by lia. simpl.
  rewrite take_ids_arange by lia. simpl. fold (vol_part pnz j u).
  destruct (concat1_shape ntheta pnz _ (fwd_parts_shape j u)) as [HlenP HrowsP].
  rewrite length_fwd_parts in HrowsP.
  pose proof (fwd_tomo_shape (vol_part pnz j u)) as Hs.
  pose proof (shape3_length _ _ _ _ Hs) as HlenF.
  pose proof (shape3_rows _ _ _ _ Hs) as HrowsF.
  rewrite assign_ids1_arange; first last.
  - eapply Forall_impl; [exact HrowsF|]. simpl. intros; lia.
  - eapply Forall_impl.
    + apply (hcat_rows _ _ (j * pnz) (nz - j * pnz) HrowsP).
      apply Forall_replicate, length_replicate.
    + simpl. intros; lia.
  - rewrite length_hcat; unfold zeros3; rewrite ?length_replicate; lia.
  - lia.
  - f_equal.
    unfold zeros3.
    replace (nz - j * pnz)%nat with (pnz + t)%nat by lia.
    replace ((j + 1) * pnz)%nat with (j * pnz + pnz)%nat by lia.
    by apply assign_rows_hcat.
Qed.

(** The loop of [adj_tomo_batch] after [j] passes. *)
Lemma adj_batch_loop (data : arr3) (j : nat) :
  (j * pnz ≤ nz)%nat → Forall (λ row, (j * pnz ≤ length row)%nat) data →
  for_each (λ k res,
      let ids := arange (k * pnz) ((k + 1) * pnz) in
      data_gpu ← take_ids1 data ids;
      let res_gpu := adj_tomo data_gpu in
      assign_ids res ids res_gpu)
    (seq 0 j) (zeros3 nz n n)
  = Done (concat (adj_parts j data)
            ++ replicate (nz - j * pnz) (replicate n (replicate n C0))).
Proof.
  induction j as [|j IH]; intros Hnz Hdata.
  { simpl. by rewrite Nat.sub_0_r. }
  replace (nz - S j * pnz)%nat with (nz - j * pnz - pnz)%nat by lia.
  rewrite adj_parts_S, concat_app.
  rewrite seq_S, for_each_snoc, IH; [|lia|]; last first.
  { eapply Forall_impl; [exact Hdata|]. simpl. intros; lia. }
  simpl. rewrite take_ids1_arange; [|lia|]; last first.
  { eapply Forall_impl; [exact Hdata|]. simpl. intros; lia. }
  simpl. fold (proj_part pnz j data).
  pose proof (length_concat_same pnz _ (adj_parts_shape j data)) as HlenC.
  rewrite length_adj_parts in HlenC.
  pose proof (shape3_length _ _ _ _
    (adj_tomo_shape (proj_part pnz j data))) as HlenA.
  rewrite assign_ids_arange; first last.
  - lia.
  - rewrite length_app, length_replicate. lia.
  - lia.
  - f_equal. simpl. rewrite app_nil_r.
    rewrite take_app_length' by done.
    rewrite drop_app_ge by lia. rewrite drop_replicate, <- app_assoc.
    do 3 f_equal. lia.
Qed.

Lemma fwd_parts_take (j c : nat) (u : arr3) :
  (j * pnz ≤ c)%nat → fwd_parts j (take c u) = fwd_parts j u.
Proof.
  intros Hc. unfold fwd_parts. apply list_fmap_ext. intros i k Hk. simpl.
  apply lookup_seq in Hk as [-> Hlt]. simpl.
  unfold vol_part. rewrite slice0_take; [done|nia].
Qed.

Lemma adj_parts_slice (j c : nat) (data : arr3) :
  (j * pnz ≤ c)%nat → adj_parts j (slice1 0 c data) = adj_parts j data.
Proof.
  intros Hc. unfold adj_parts. apply list_fmap_ext. intros i k Hk. simpl.
  apply lookup_seq in Hk as [-> Hlt]. simpl.
  unfold proj_part. rewrite slice1_slice1; [done|nia].
Qed.

Lemma fwd_tomo_batch_closed (u : arr3) :
  (0 < pnz)%nat → (nz / pnz * pnz ≤ length u)%nat →
  fwd_tomo_batch u
  = Done (hcat (concat1 ntheta (fwd_parts (nz / pnz) u))
            (zeros3 ntheta (nz - nz / pnz * pnz) n)).
Proof.
  intros Hpnz Hu. unfold fwd_tomo_batch, floordiv.
  rewrite decide_False by lia. simpl. apply fwd_batch_loop; [|done].
  rewrite Nat.mul_comm. apply Nat.Div0.mul_div_le.
Qed.

Lemma adj_tomo_batch_closed (data : arr3) :
  (0 < pnz)%nat → Forall (λ row, (nz / pnz * pnz ≤ length row)%nat) data →
  adj_tomo_batch data
  = Done (concat (adj_parts (nz / pnz) data)
            ++ replicate (nz - nz / pnz * pnz) (replicate n (replicate n C0))).
Proof.
  intros Hpnz Hdata. unfold adj_tomo_batch, floordiv.
  rewrite decide_False by lia. simpl. apply adj_batch_loop; [|done].
  rewrite Nat.mul_comm. apply Nat.Div0.mul_div_le.
Qed.

(** C2.  When [nz] is an exact multiple of [pnz], [fwd_tomo_batch(u)] is
    the concatenation along the depth axis of [fwd_tomo] applied to each
    depth partition of [u]: the slice [[:, k*pnz:(k+1)*pnz]] of the result
    is [fwd_tomo(u[k*pnz:(k+1)*pnz])] for every [k < nz/pnz]. *)
Theorem fwd_tomo_batch_partitions (u : arr3) :
  (0 < pnz)%nat → (nz mod pnz = 0)%nat → shape3 nz n n u →
  ∃ res : arr3,
    fwd_tomo_batch u = Done res ∧
    res = concat1 ntheta
            ((λ k, fwd_tomo (slice0 (k * pnz) ((k + 1) * pnz) u))
               <$> seq 0 (nz / pnz)) ∧
    ∀ k : nat, (k < nz / pnz)%nat →
      slice1 (k * pnz) ((k + 1) * pnz) res
      = fwd_tomo (slice0 (k * pnz) ((k + 1) * pnz) u).
Proof.
  intros Hpnz Hmod Hshape.
  pose proof (shape3_length _ _ _ _ Hshape) as Hu.
  assert (nz = nz / pnz * pnz)%nat as HK.
  { rewrite Nat.mul_comm. apply Nat.Div0.div_exact. done. }
  exists (concat1 ntheta (fwd_parts (nz / pnz) u)).
  destruct (concat1_shape ntheta pnz _ (fwd_parts_shape (nz / pnz) u))
    as [Hlen Hrows].
  split; [|split; [done|]].
  - rewrite fwd_tomo_batch_closed by lia.
    replace (nz - nz / pnz * pnz)%nat with 0%nat by lia.
    f_equal. unfold zeros3. simpl. by apply hcat_nil_r.
  - intros k Hk.
    replace ((k + 1) * pnz)%nat with (k * pnz + pnz)%nat by lia.
    apply (slice1_concat1 ntheta); [apply fwd_parts_shape|].
    unfold fwd_parts. rewrite list_lookup_fmap, lookup_seq_lt by done.
    simpl. unfold vol_part. do 3 f_equal. lia.
Qed.

End Batch.

(** ** Loops over the store *)

Lemma for_eachM_unchanged {A : Type} (body : A → M unit) (l : list A) (h : heap) :
  (∀ x, x ∈ l → body x h = (Done tt, h)) →
  for_eachM body l h = (Done tt, h).
Proof.
  induction l as [|x l IH]; intros Hbody; simpl; [done|].
  unfold mbind, M_bind. rewrite Hbody by left.
  apply IH. intros y Hy. apply Hbody. by right.
Qed.

(** A loop whose passes keep [I] and either finish or run out of fuel. *)
Lemma for_eachM_invariant {A : Type} (body : A → M unit) (I : heap → Prop)
    (l : list A) :
  (∀ x h1, x ∈ l → I h1 →
     ∃ h2, I h2 ∧ (body x h1 = (Done tt, h2) ∨ body x h1 = (OutOfFuel, h2))) →
  ∀ h1, I h1 →
    ∃ h2, I h2 ∧
      (for_eachM body l h1 = (Done tt, h2) ∨ for_eachM body l h1 = (OutOfFuel, h2)).
Proof.
  induction l as [|x l IH]; intros Hbody h1 HI; simpl.
  { exists h1. split; [done|by left]. }
  destruct (Hbody x h1 ltac:(left) HI) as (h2 & HI2 & [E|E]).
  - destruct (IH (λ y h Hy, Hbody y h ltac:(by right)) h2 HI2) as (h3 & HI3 & Hr).
    exists h3. split; [done|]. unfold mbind, M_bind. by rewrite E.
  - exists h2. split; [done|]. right. unfold mbind, M_bind. by rewrite E.
Qed.

(** A loop whose passes keep [I] whatever their outcome. *)
Lemma for_eachM_preserves {A : Type} (body : A → M unit) (I : heap → Prop)
    (l : list A) :
  (∀ x h1, I h1 → I (body x h1).2) →
  ∀ h1, I h1 → I (for_eachM body l h1).2.
Proof.
  intros Hbody. induction l as [|x l IH]; intros h1 HI; simpl; [done|].
  unfold mbind, M_bind. specialize (Hbody x h1 HI).
  destruct (body x h1) as [[[]| |] h2]; simpl in *; auto.
Qed.

(** ** Lengths along the first axis *)

Lemma length_map3 f (x : arr3) : length (map3 f x) = length x.
Proof. unfold map3. apply length_fmap. Qed.

Lemma length_zip3 f (x y : arr3) :
  length (zip3 f x y) = Nat.min (length x) (length y).
Proof. unfold zip3. apply length_zip_with. Qed.

Lemma length_fill3 (res : arr3) f : length (fill3 res f) = length res.
Proof. unfold fill3. apply length_imap. Qed.

Lemma slice0_glue {A : Type} (a b : nat) (v : list A) :
  (a ≤ b)%nat → take a v ++ slice0 a b v ++ drop b v = v.
Proof.
  intros Hab. unfold slice0.
  rewrite app_assoc, take_take_drop.
  replace (a + (b - a))%nat with b by lia. apply take_drop.
Qed.

Lemma length_slice0 {A : Type} (a b : nat) (v : list A) :
  (a ≤ b)%nat → (b ≤ length v)%nat → length (slice0 a b v) = (b - a)%nat.
Proof. intros. unfold slice0. rewrite length_take, length_drop. lia. Qed.

Lemma line_search_no_raise fuel minf gamma Ru Rd e :
  line_search fuel minf gamma Ru Rd ≠ Raise e.
Proof.
  revert gamma. induction fuel as [|fuel IH]; intros gamma; simpl; [done|].
  case_bool_decide; [apply IH|done].
Qed.

(** ** The partition-wise solver *)

Section CGBatch.
Context (ntheta nz n pnz : nat).
Context (fwd adj : arr3 → nat → nat → nat → C).

Local Abbreviation fwd_tomo := (fwd_tomo ntheta n pnz fwd).
Local Abbreviation adj_tomo := (adj_tomo n pnz adj).
Local Abbreviation cg_run := (cg_run ntheta n pnz fwd adj).
Local Abbreviation cg_tomo := (cg_tomo ntheta n pnz fwd adj).
Local Abbreviation cg_tomo_batch := (cg_tomo_batch ntheta nz n pnz fwd adj).

(** A run of the loop on a partition-sized [u] either runs out of fuel in
    a line search or ends with partition-sized loop variables; it raises
    nothing. *)
Lemma cg_run_outcome fuel xi0 (u : arr3) (i : nat) :
  length u = pnz →
  cg_run fuel xi0 u i = OutOfFuel ∨
  ∃ s, cg_run fuel xi0 u i = Done s ∧ length (cg_u s) = pnz ∧
       match i with
       | O => cg_hist s = None
       | S _ => ∃ d g, cg_hist s = Some (d, g) ∧ length d = pnz
       end.
Proof.
  intros Hu. induction i as [|i IH].
  { right. by exists (CgVars u None). }
  rewrite cg_run_S. destruct IH as [->|(s & -> & Hlen & Hhist)]; [by left|].
  simpl. unfold cg_body.
  set (grad := a3divr _ _).
  assert (length grad = pnz) as Hgrad.
  { unfold grad, a3divr. rewrite length_map3. unfold adj_tomo.
    rewrite length_fill3. apply length_replicate. }
  assert (∃ d, cg_direction i (cg_hist s) grad = Done d ∧ length d = pnz)
    as (d & -> & Hd).
  { unfold cg_direction. destruct i as [|i]; simpl.
    - eexists. split; [done|]. unfold a3neg. by rewrite length_map3.
    - destruct Hhist as (d0 & g0 & -> & Hd0). eexists. split; [done|].
      unfold a3add, a3neg, a3cmul. rewrite length_zip3, !length_map3. lia. }
  simpl. destruct (line_search _ _ _ _ _) as [g|e|] eqn:Hls; simpl.
  - right. eexists. split; [done|]. simpl. split; [|by eauto].
    unfold a3add, a3scale. rewrite length_zip3, length_map3. lia.
  - by destruct (line_search_no_raise _ _ _ _ _ _ Hls).
  - by left.
Qed.

Lemma cg_tomo_outcome fuel xi0 (u : arr3) (titer : nat) :
  length u = pnz →
  cg_tomo fuel xi0 u titer = OutOfFuel ∨
  ∃ w, cg_tomo fuel xi0 u titer = Done w ∧ length w = pnz.
Proof.
  intros Hu. unfold cg_tomo.
  destruct (cg_run_outcome fuel xi0 u titer Hu) as [->|(s & -> & Hlen & _)];
    [by left|].
  right. by exists (cg_u s).
Qed.

(** One pass of the loop of [cg_tomo_batch] over a store in which [u]
    holds [v1]. *)
Lemma cg_batch_pass fuel (xi0 : arr3) titer (u : loc) (k : nat) (h1 : heap)
    (v1 : arr3) :
  h1 !! u = Some v1 →
  ((k + 1) * pnz ≤ length v1)%nat →
  Forall (λ row, ((k + 1) * pnz ≤ length row)%nat) xi0 →
  (let ids := arange (k * pnz) ((k + 1) * pnz) in
   uv ← load u;
   u_gpu ← lift (take_ids uv ids);
   xi0_gpu ← lift (take_ids1 xi0 ids);
   u_gpu' ← lift (cg_tomo fuel xi0_gpu u_gpu titer);
   uv' ← load u;
   w ← lift (assign_ids uv' ids u_gpu');
   store u w) h1
  = match cg_tomo fuel (proj_part pnz k xi0) (vol_part pnz k v1) titer with
    | Done w =>
        if decide (length w = pnz)
        then (Done tt,
              <[u := take (k * pnz) v1 ++ w ++ drop ((k + 1) * pnz) v1]> h1)
        else (Raise ValueError, h1)
    | Raise e => (Raise e, h1)
    | OutOfFuel => (OutOfFuel, h1)
    end.
Proof.
  intros Hu Hv Hxi. cbv zeta.
  unfold mbind, M_bind, load, lift, store. rewrite Hu.
  rewrite take_ids_arange by lia.
  rewrite take_ids1_arange by (done || lia).
  fold (vol_part pnz k v1) (proj_part pnz k xi0).
  destruct (cg_tomo _ _ _ _) as [w|e|]; [|done..].
  rewrite Hu. destruct (decide (length w = pnz)) as [Hw|Hw].
  - rewrite assign_ids_arange by lia. by rewrite Hu.
  - unfold assign_ids, arange. rewrite length_seq, decide_False; [done|lia].
Qed.

(** The store after a pass is the store before it, or that store with a new
    array behind [u]: a pass writes to nothing else. *)
Lemma cg_batch_pass_writes fuel (xi0 : arr3) titer (u : loc) (k : nat) (h1 : heap) :
  let h2 :=
    ((let ids := arange (k * pnz) ((k + 1) * pnz) in
      uv ← load u;
      u_gpu ← lift (take_ids uv ids);
      xi0_gpu ← lift (take_ids1 xi0 ids);
      u_gpu' ← lift (cg_tomo fuel xi0_gpu u_gpu titer);
      uv' ← load u;
      w ← lift (assign_ids uv' ids u_gpu');
      store u w) h1).2 in
  h2 = h1 ∨ ∃ w, h2 = <[u:=w]> h1.
Proof.
  cbv zeta. unfold mbind, M_bind, load, lift, store.
  destruct (h1 !! u) as [v1|] eqn:Hu; [|by left].
  destruct (take_ids v1 _) as [u_gpu| |]; [|by left..].
  destruct (take_ids1 xi0 _) as [xi0_gpu| |]; [|by left..].
  destruct (cg_tomo _ _ _ _) as [w| |]; [|by left..].
  rewrite Hu.
  destruct (assign_ids v1 (arange _ _) w) as [v2| |]; [|by left..].
  rewrite Hu. right. by exists v2.
Qed.

(** C6.  With [titer = 0], [cg_tomo_batch] returns a new array whose
    contents are those of [init]: every partition is written back as it
    was read. *)
Theorem cg_tomo_batch_zero_iter fuel (xi0 : arr3) (init : loc) (h : heap) (v : arr3) :
  (0 < pnz)%nat →
  h !! init = Some v → shape3 nz n n v → shape3 ntheta nz n xi0 →
  ∃ r : loc,
    cg_tomo_batch fuel xi0 init 0 h = (Done r, <[r:=v]> h) ∧
    h !! r = None.
Proof.
  intros Hpnz Hinit Hv Hxi.
  pose proof (shape3_length _ _ _ _ Hv) as Hlen.
  pose proof (shape3_rows _ _ _ _ Hxi) as Hrows.
  assert (nz / pnz * pnz ≤ nz)%nat as HK.
  { rewrite Nat.mul_comm. apply Nat.Div0.mul_div_le. }
  exists (fresh (dom h)).
  assert (h !! fresh (dom h) = None) as Hfresh.
  { apply not_elem_of_dom, is_fresh. }
  split; [|done].
  unfold cg_tomo_batch, floordiv.
  unfold mbind at 1, M_bind at 1, ndarray_copy. rewrite Hinit.
  unfold mbind at 1, M_bind at 1, lift. rewrite decide_False by lia.
  unfold mbind at 1, M_bind at 1.
  rewrite for_eachM_unchanged; [done|].
  intros k Hk. apply elem_of_seq in Hk as [_ Hk]. simpl in Hk.
  assert ((k + 1) * pnz ≤ nz)%nat as Hk1 by nia.
  etrans.
  { apply (cg_batch_pass fuel xi0 0 _ k _ v).
    - apply lookup_insert_eq.
    - lia.
    - eapply Forall_impl; [exact Hrows|]. simpl. intros; lia. }
  simpl. unfold vol_part.
  rewrite decide_True by (rewrite length_slice0; lia).
  rewrite slice0_glue by lia. by rewrite insert_insert_eq.
Qed.

(** C9.  [cg_tomo_batch] never writes to the caller's [init]: whatever the
    outcome, every array of the store the call started from is unchanged
    when it ends; an array it returns is a new object, distinct from
    [init]. *)
Theorem cg_tomo_batch_keeps_init fuel (xi0 : arr3) (init : loc) (titer : nat)
    (h : heap) :
  let '(out, h') := cg_tomo_batch fuel xi0 init titer h in
  h ⊆ h' ∧ h' !! init = h !! init ∧
  match out with
  | Done r => r ≠ init ∧ h !! r = None ∧ is_Some (h' !! r)
  | _ => True
  end.
Proof.
  unfold cg_tomo_batch.
  unfold mbind at 1, M_bind at 1, ndarray_copy.
  destruct (h !! init) as [v|] eqn:Hinit; [|by rewrite Hinit].
  set (r := fresh (dom h)).
  assert (h !! r = None) as Hfresh by apply not_elem_of_dom, is_fresh.
  assert (r ≠ init) as Hne by congruence.
  unfold mbind at 1, M_bind at 1, lift.
  assert (∀ v', h ⊆ <[r:=v']> h ∧ <[r:=v']> h !! init = h !! init) as Hframe.
  { intros v'. split; [by apply insert_subseteq|by apply lookup_insert_ne]. }
  destruct (floordiv nz pnz) as [nparts| |].
  2,3: by split_and!; [apply Hframe | rewrite (proj2 (Hframe v))|].
  unfold mbind at 1, M_bind at 1.
  match goal with |- context [for_eachM ?b ?l ?h1] =>
    pose proof (for_eachM_preserves b (λ h2, ∃ v', h2 = <[r:=v']> h) l) as Hloop;
    destruct (for_eachM b l h1) as [out h2] eqn:Eloop
  end.
  destruct Hloop with (h1 := <[r:=v]> h) as [v' Hh2].
  - intros k h1 [v1 ->].
    destruct (cg_batch_pass_writes fuel xi0 titer r k (<[r:=v1]> h)) as [E|[w E]].
    + exists v1. exact E.
    + exists w. etrans; [exact E|]. apply insert_insert_eq.
  - by exists v.
  - rewrite Eloop in Hh2. simpl in Hh2. subst h2.
    destruct (Hframe v') as [Hsub Hkeep]. rewrite <- Hinit.
    destruct out as [[]| |]; simpl; split_and!; try done.
    rewrite lookup_insert_eq. by eexists.
Qed.

Local Abbreviation fwd_tomo_batch := (fwd_tomo_batch ntheta nz n pnz fwd).
Local Abbreviation adj_tomo_batch := (adj_tomo_batch nz n pnz adj).

Lemma cg_tomo_batch_tail fuel (xi0 : arr3) (init : loc) (titer : nat) (h : heap)
    (v : arr3) :
  (0 < pnz)%nat →
  h !! init = Some v → length v = nz →
  Forall (λ row, length row = nz) xi0 →
  ∃ out h',
    cg_tomo_batch fuel xi0 init titer h = (out, h') ∧
    (out = OutOfFuel ∨
     ∃ (r : loc) (v' : arr3),
       out = Done r ∧ h' !! r = Some v' ∧ length v' = nz ∧
       drop (nz / pnz * pnz) v' = drop (nz / pnz * pnz) v).
Proof.
  intros Hpnz Hinit Hlen Hrows.
  assert (nz / pnz * pnz ≤ nz)%nat as HK.
  { rewrite Nat.mul_comm. apply Nat.Div0.mul_div_le. }
  set (m := (nz / pnz * pnz)%nat) in *.
  set (r := fresh (dom h)).
  unfold cg_tomo_batch, floordiv.
  unfold mbind at 1, M_bind at 1, ndarray_copy. rewrite Hinit. fold r.
  unfold mbind at 1, M_bind at 1, lift. rewrite decide_False by lia.
  unfold mbind at 1, M_bind at 1.
  match goal with |- context [for_eachM ?b ?l ?hh] =>
    destruct (for_eachM_invariant b
      (λ h2, ∃ v', h2 = <[r:=v']> h ∧ length v' = nz ∧ drop m v' = drop m v) l)
      with (h1 := hh) as (h2 & (v' & -> & Hlen' & Hdrop) & [E|E])
  end.
  - intros k h1 Hk (v1 & -> & Hlen1 & Hdrop1).
    apply elem_of_seq in Hk as [_ Hk]. simpl in Hk.
    assert ((k + 1) * pnz ≤ m)%nat as Hk1 by (unfold m; nia).
    pose proof (cg_batch_pass fuel xi0 titer r k (<[r:=v1]> h) v1
      (lookup_insert_eq _ _ _)) as Epass.
    cbv beta.
    destruct (cg_tomo_outcome fuel (proj_part pnz k xi0) (vol_part pnz k v1) titer)
      as [Eo|(w & Eo & Hw)].
    { unfold vol_part. rewrite length_slice0; lia. }
    + exists (<[r:=v1]> h). split; [by exists v1|]. right.
      etrans; [apply Epass|]; [lia| |by rewrite Eo].
      eapply Forall_impl; [exact Hrows|]. simpl. intros; lia.
    + eexists. split; last first.
      { left. etrans; [apply Epass|]; [lia| |].
        - eapply Forall_impl; [exact Hrows|]. simpl. intros; lia.
        - rewrite Eo, decide_True by done. by rewrite insert_insert_eq. }
      eexists. split; [done|]. split.
      * rewrite !length_app, length_take, length_drop. lia.
      * rewrite <- Hdrop1.
        rewrite drop_app_ge by (rewrite length_take; lia).
        rewrite drop_app_ge by (rewrite length_take; lia).
        rewrite drop_drop, length_take. f_equal. lia.
  - by exists v.
  - rewrite E. do 2 eexists. split; [done|]. right.
    exists r, v'. by rewrite lookup_insert_eq.
  - rewrite E. do 2 eexists. split; [done|]. by left.
Qed.

(** C10.  The batched operators leave the depth slices past
    [floor(nz/pnz)*pnz] alone, without raising: [fwd_tomo_batch] and
    [adj_tomo_batch] return zeros there and give the same result for any
    input that agrees on the slices before, and [cg_tomo_batch], when it
    returns, returns those slices as they are in [init]. *)
Theorem batch_truncation :
  (0 < pnz)%nat →
  (∀ u : arr3, shape3 nz n n u →
     ∃ res : arr3,
       fwd_tomo_batch u = Done res ∧
       slice1 (nz / pnz * pnz) nz res = zeros3 ntheta (nz - nz / pnz * pnz) n ∧
       ∀ u' : arr3, shape3 nz n n u' →
         take (nz / pnz * pnz) u' = take (nz / pnz * pnz) u →
         fwd_tomo_batch u' = Done res) ∧
  (∀ data : arr3, shape3 ntheta nz n data →
     ∃ res : arr3,
       adj_tomo_batch data = Done res ∧
       drop (nz / pnz * pnz) res = zeros3 (nz - nz / pnz * pnz) n n ∧
       ∀ data' : arr3, shape3 ntheta nz n data' →
         slice1 0 (nz / pnz * pnz) data' = slice1 0 (nz / pnz * pnz) data →
         adj_tomo_batch data' = Done res) ∧
  (∀ fuel (xi0 : arr3) (init : loc) (titer : nat) (h : heap) (v : arr3),
     h !! init = Some v → shape3 nz n n v → shape3 ntheta nz n xi0 →
     ∃ out h',
       cg_tomo_batch fuel xi0 init titer h = (out, h') ∧
       (out = OutOfFuel ∨
        ∃ (r : loc) (v' : arr3),
          out = Done r ∧ h' !! r = Some v' ∧ length v' = nz ∧
          drop (nz / pnz * pnz) v' = drop (nz / pnz * pnz) v)).
Proof.
  intros Hpnz.
  assert (nz / pnz * pnz ≤ nz)%nat as HK.
  { rewrite Nat.mul_comm. apply Nat.Div0.mul_div_le. }
  split_and!.
  - intros u Hshape. pose proof (shape3_length _ _ _ _ Hshape) as Hu.
    eexists. split; [apply fwd_tomo_batch_closed; lia|].
    destruct (concat1_shape ntheta pnz _
      (fwd_parts_shape ntheta n pnz fwd (nz / pnz) u)) as [Hlen Hrows].
    rewrite length_fwd_parts in Hrows. split.
    + replace nz with (nz / pnz * pnz + (nz - nz / pnz * pnz))%nat at 2 by lia.
      apply slice1_hcat_r; [done| |].
      * apply Forall_replicate, length_replicate.
      * unfold zeros3. by rewrite length_replicate.
    + intros u' Hshape' Htake.
      pose proof (shape3_length _ _ _ _ Hshape') as Hu'.
      rewrite fwd_tomo_batch_closed by lia.
      do 3 f_equal.
      rewrite <- (fwd_parts_take _ _ _ _ _ (nz / pnz * pnz) u) by done.
      rewrite <- (fwd_parts_take _ _ _ _ _ (nz / pnz * pnz) u') by done.
      by rewrite Htake.
  - intros data Hshape. pose proof (shape3_rows _ _ _ _ Hshape) as Hdata.
    eexists. split.
    { apply adj_tomo_batch_closed; [done|].
      eapply Forall_impl; [exact Hdata|]. simpl. intros; lia. }
    pose proof (length_concat_same pnz _
      (adj_parts_shape n pnz adj (nz / pnz) data)) as Hlen.
    rewrite length_adj_parts in Hlen. split.
    + by rewrite drop_app_length'.
    + intros data' Hshape' Hslice.
      rewrite adj_tomo_batch_closed; [|done|]; last first.
      { eapply Forall_impl; [exact (shape3_rows _ _ _ _ Hshape')|].
        simpl. intros; lia. }
      do 3 f_equal.
      rewrite <- (adj_parts_slice _ _ _ _ (nz / pnz * pnz) data) by done.
      rewrite <- (adj_parts_slice _ _ _ _ (nz / pnz * pnz) data') by done.
      by rewrite Hslice.
  - intros fuel xi0 init titer h v Hinit Hv Hxi.
    apply cg_tomo_batch_tail; [done|done| |].
    + exact (shape3_length _ _ _ _ Hv).
    + exact (shape3_rows _ _ _ _ Hxi).
Qed.

End CGBatch.

(** ** Sums and inner products *)

Lemma Cadd_0_l (a : C) : Cadd C0 a = a.
Proof. apply C_eq; simpl; ring. Qed.

Lemma Cadd_0_r (a : C) : Cadd a C0 = a.
Proof. apply C_eq; simpl; ring. Qed.

Lemma Cadd_assoc (a b c : C) : Cadd a (Cadd b c) = Cadd (Cadd a b) c.
Proof. apply C_eq; simpl; ring. Qed.

Lemma Cadd_swap (a b c d : C) :
  Cadd (Cadd a b) (Cadd c d) = Cadd (Cadd a c) (Cadd b d).
Proof. apply C_eq; simpl; ring. Qed.

Lemma csum2_app (x y : arr2) : csum2 (x ++ y) = Cadd (csum2 x) (csum2 y).
Proof.
  unfold csum2. induction x as [|r x IH]; simpl.
  - by rewrite Cadd_0_l.
  - by rewrite IH, Cadd_assoc.
Qed.

Lemma csum_app (x y : arr3) : csum (x ++ y) = Cadd (csum x) (csum y).
Proof.
  unfold csum. induction x as [|r x IH]; simpl.
  - by rewrite Cadd_0_l.
  - by rewrite IH, Cadd_assoc.
Qed.

(** [vdot] splits over a concatenation along the first axis ... *)
Lemma vdot_app (a b a' b' : arr3) :
  length a = length a' →
  vdot (a ++ b) (a' ++ b') = Cadd (vdot a a') (vdot b b').
Proof.
  intros Hlen. unfold vdot, a3mul, a3conj, zip3, map3.
  rewrite fmap_app, zip_with_app by (by rewrite length_fmap).
  apply csum_app.
Qed.

Lemma vdot_cons (r r' : arr2) (x x' : arr3) :
  vdot (r :: x) (r' :: x')
  = Cadd (csum2 (zip_with (zip_with Cmul) ((λ s : arr1, Cconj <$> s) <$> r) r'))
      (vdot x x').
Proof. reflexivity. Qed.

(** ... and over a concatenation along the second axis. *)
Lemma vdot_hcat (P F P' F' : arr3) :
  Forall2 (λ r r' : arr2, length r = length r') P P' →
  length F = length P → length F' = length P →
  vdot (hcat P F) (hcat P' F') = Cadd (vdot P P') (vdot F F').
Proof.
  intros HP. revert F F'.
  induction HP as [|p p' P P' Hp _ IH]; intros F F' HF HF'.
  { destruct F, F'; try done; unfold vdot; simpl; by rewrite Cadd_0_l. }
  destruct F as [|f F], F' as [|f' F']; try done.
  specialize (IH F F' ltac:(simpl in HF; lia) ltac:(simpl in HF'; lia)).
  change (hcat (p :: P) (f :: F)) with ((p ++ f) :: hcat P F).
  change (hcat (p' :: P') (f' :: F')) with ((p' ++ f') :: hcat P' F').
  rewrite !vdot_cons, IH.
  rewrite fmap_app, zip_with_app by (by rewrite length_fmap).
  rewrite csum2_app. apply Cadd_swap.
Qed.

Lemma vdot_nil_rows (rows : nat) (x : arr3) : vdot (replicate rows []) x = C0.
Proof.
  unfold vdot, a3mul, a3conj, zip3, map3. revert x.
  induction rows as [|rows IH]; intros [|r x]; simpl; try done.
  rewrite IH. by rewrite Cadd_0_l.
Qed.

Lemma slice1_split {A : Type} (a m : nat) (p : list (list A)) :
  slice1 0 (a + m) p = hcat (slice1 0 a p) (slice1 a (a + m) p).
Proof.
  unfold slice1, slice0, hcat. induction p as [|r p IH]; simpl; [done|].
  f_equal; [|exact IH]. rewrite !Nat.sub_0_r.
  replace (a + m - a)%nat with m by lia. by rewrite take_take_drop.
Qed.

Lemma slice1_all {A : Type} (b : nat) (p : list (list A)) :
  Forall (λ r, length r = b) p → slice1 0 b p = p.
Proof.
  unfold slice1, slice0. induction 1 as [|r p Hr _ IH]; simpl; [done|].
  f_equal; [|exact IH]. rewrite Nat.sub_0_r. apply take_ge. lia.
Qed.

Lemma slice1_rows {A : Type} (a b c : nat) (p : list (list A)) :
  (a ≤ b)%nat → (b ≤ c)%nat → Forall (λ r, length r = c) p →
  Forall (λ r, length r = (b - a)%nat) (slice1 a b p).
Proof.
  intros Hab Hbc Hp. unfold slice1. apply Forall_fmap.
  eapply Forall_impl; [exact Hp|]. simpl. intros r Hr.
  apply length_slice0; lia.
Qed.

Lemma vol_part_shape (nz n pnz k : nat) (u : arr3) :
  shape3 nz n n u → ((k + 1) * pnz ≤ nz)%nat →
  shape3 pnz n n (vol_part pnz k u).
Proof.
  intros [Hlen Hrows] Hk. unfold vol_part, slice0. split.
  - rewrite length_take, length_drop. lia.
  - by apply Forall_take, Forall_drop.
Qed.

Lemma proj_part_shape (ntheta nz n pnz k : nat) (p : arr3) :
  shape3 ntheta nz n p → ((k + 1) * pnz ≤ nz)%nat →
  shape3 ntheta pnz n (proj_part pnz k p).
Proof.
  intros [Hlen Hrows] Hk. unfold proj_part, slice1. split.
  - by rewrite length_fmap.
  - apply Forall_fmap. eapply Forall_impl; [exact Hrows|]. simpl.
    intros r [Hr Hs]. unfold slice0. split.
    + rewrite length_take, length_drop. lia.
    + by apply Forall_take, Forall_drop.
Qed.

(** ** Adjointness of the batched pair *)

Section Adjoint.
Context (ntheta nz n pnz : nat).
Context (fwd adj : arr3 → nat → nat → nat → C).

Local Abbreviation fwd_tomo := (fwd_tomo ntheta n pnz fwd).
Local Abbreviation adj_tomo := (adj_tomo n pnz adj).
Local Abbreviation fwd_tomo_batch := (fwd_tomo_batch ntheta nz n pnz fwd).
Local Abbreviation adj_tomo_batch := (adj_tomo_batch nz n pnz adj).
Local Abbreviation fwd_parts := (fwd_parts ntheta n pnz fwd).
Local Abbreviation adj_parts := (adj_parts n pnz adj).

Lemma vdot_parts (u p : arr3) (j : nat) :
  (∀ u p : arr3, shape3 pnz n n u → shape3 ntheta pnz n p →
     vdot (fwd_tomo u) p = vdot u (adj_tomo p)) →
  shape3 nz n n u → shape3 ntheta nz n p → (j * pnz ≤ nz)%nat →
  vdot (concat1 ntheta (fwd_parts j u)) (slice1 0 (j * pnz) p)
  = vdot (take (j * pnz) u) (concat (adj_parts j p)).
Proof.
  intros Hadj Hu Hp. induction j as [|j IH]; intros Hj.
  { simpl. unfold concat1. simpl. by rewrite vdot_nil_rows. }
  specialize (IH ltac:(lia)).
  pose proof (shape3_length _ _ _ _ Hp) as HlenP.
  pose proof (shape3_rows _ _ _ _ Hp) as HrowsP.
  destruct (concat1_shape ntheta pnz _ (fwd_parts_shape ntheta n pnz fwd j u))
    as [HlenC HrowsC].
  rewrite length_fwd_parts in HrowsC.
  pose proof (fwd_tomo_shape ntheta n pnz fwd (vol_part pnz j u)) as HF.
  rewrite fwd_parts_S, concat1_snoc, adj_parts_S, concat_app. simpl concat.
  rewrite app_nil_r.
  replace (S j * pnz)%nat with (j * pnz + pnz)%nat by lia.
  rewrite slice1_split, <- take_take_drop.
  rewrite vdot_hcat; first last.
  - unfold slice1. rewrite length_fmap. lia.
  - rewrite (shape3_length _ _ _ _ HF). lia.
  - apply Forall2_same_length_lookup_2.
    { unfold slice1. rewrite length_fmap. lia. }
    intros i r r' Hr Hr'.
    rewrite (proj1 (Forall_lookup _ _) HrowsC i r Hr).
    pose proof (slice1_rows 0 (j * pnz) nz p ltac:(lia) ltac:(lia) HrowsP) as Hs.
    rewrite (proj1 (Forall_lookup _ _) Hs i r' Hr'). lia.
  - rewrite vdot_app; last first.
    { rewrite length_take, (shape3_length _ _ _ _ Hu).
      rewrite (length_concat_same pnz _ (adj_parts_shape n pnz adj j p)).
      rewrite length_adj_parts. lia. }
    rewrite IH. f_equal.
    replace (j * pnz + pnz)%nat with ((j + 1) * pnz)%nat by lia.
    replace (take pnz (drop (j * pnz) u)) with (vol_part pnz j u)
      by (unfold vol_part, slice0; f_equal; lia).
    apply (Hadj (vol_part pnz j u) (proj_part pnz j p)).
    + apply (vol_part_shape nz); [done|lia].
    + apply (proj_part_shape ntheta nz); [done|lia].
Qed.

(** C8.  If [fwd_tomo] and [adj_tomo] are adjoint on partition-sized
    arrays, [<fwd_tomo(u), p> = <u, adj_tomo(p)>], then so are the batched
    operators on full-size arrays, when [nz] is an exact multiple of [pnz]. *)
Theorem batch_adjoint (u p : arr3) :
  (∀ u p : arr3, shape3 pnz n n u → shape3 ntheta pnz n p →
     vdot (fwd_tomo u) p = vdot u (adj_tomo p)) →
  (0 < pnz)%nat → (nz mod pnz = 0)%nat →
  shape3 nz n n u → shape3 ntheta nz n p →
  ∃ Ru Ap : arr3,
    fwd_tomo_batch u = Done Ru ∧ adj_tomo_batch p = Done Ap ∧
    vdot Ru p = vdot u Ap.
Proof.
  intros Hadj Hpnz Hmod Hu Hp.
  assert (nz / pnz * pnz = nz)%nat as HK.
  { rewrite Nat.mul_comm. symmetry. by apply Nat.Div0.div_exact. }
  pose proof (shape3_length _ _ _ _ Hu) as HlenU.
  pose proof (shape3_rows _ _ _ _ Hp) as HrowsP.
  destruct (concat1_shape ntheta pnz _
    (fwd_parts_shape ntheta n pnz fwd (nz / pnz) u)) as [HlenC _].
  exists (concat1 ntheta (fwd_parts (nz / pnz) u)), (concat (adj_parts (nz / pnz) p)).
  split_and!.
  - rewrite fwd_tomo_batch_closed by lia. rewrite HK, Nat.sub_diag.
    f_equal. unfold zeros3. simpl. by apply hcat_nil_r.
  - rewrite adj_tomo_batch_closed; [|done|].
    + rewrite HK, Nat.sub_diag. simpl. by rewrite app_nil_r.
    + eapply Forall_impl; [exact HrowsP|]. simpl. intros; lia.
  - pose proof (vdot_parts u p (nz / pnz) Hadj Hu Hp ltac:(lia)) as E.
    rewrite HK in E. rewrite slice1_all in E by done.
    by rewrite take_ge in E by lia.
Qed.

End Adjoint.

(** ** Shapes under the element-wise operators *)

Lemma map3_shape (a b c : nat) f (x : arr3) :
  shape3 a b c x → shape3 a b c (map3 f x).
Proof.
  intros [Hlen Hrows]. unfold map3. split; [by rewrite length_fmap|].
  apply Forall_fmap. eapply Forall_impl; [exact Hrows|]. simpl.
  intros r [Hr Hs]. split; [by rewrite length_fmap|].
  apply Forall_fmap. eapply Forall_impl; [exact Hs|]. simpl.
  intros s Hlen_s. by rewrite length_fmap.
Qed.

Lemma zip3_shape (a b c : nat) f (x y : arr3) :
  shape3 a b c x → shape3 a b c y → shape3 a b c (zip3 f x y).
Proof.
  intros [Hlx Hx] [Hly Hy]. unfold zip3. split.
  { rewrite length_zip_with. lia. }
  clear Hlx Hly. revert y Hy.
  induction Hx as [|r x [Hr Hs] _ IH]; intros y Hy; [constructor|].
  destruct Hy as [|r' y [Hr' Hs'] Hy]; simpl; constructor; [|by apply IH].
  split. { rewrite length_zip_with. lia. }
  clear Hr Hr' IH. revert r' Hs'.
  induction Hs as [|s r Hl _ IH]; intros r' Hs'; [constructor|].
  destruct Hs' as [|s' r' Hl' Hs']; simpl; constructor; [|by apply IH].
  rewrite length_zip_with. lia.
Qed.

Lemma shape3_same (a b c : nat) (x y : arr3) :
  shape3 a b c x → shape3 a b c y → same_shape x y.
Proof.
  intros [Hlx Hx] [Hly Hy]. unfold same_shape.
  apply Forall2_same_length_lookup_2; [lia|].
  intros i r r' Hr Hr'.
  destruct (proj1 (Forall_lookup _ _) Hx i r Hr) as [Hlr Hs].
  destruct (proj1 (Forall_lookup _ _) Hy i r' Hr') as [Hlr' Hs'].
  apply Forall2_same_length_lookup_2; [lia|].
  intros j s s' Hj Hj'.
  rewrite (proj1 (Forall_lookup _ _) Hs j s Hj).
  by rewrite (proj1 (Forall_lookup _ _) Hs' j s' Hj').
Qed.

(** ** The squared norm at the midpoint of a step *)







(** ** Monotonicity of the objective *)

Section Monotone.
Context (ntheta n pnz : nat).
Context (fwd adj : arr3 → nat → nat → nat → C).

Local Abbreviation fwd_tomo := (fwd_tomo ntheta n pnz fwd).
Local Abbreviation adj_tomo := (adj_tomo n pnz adj).
Local Abbreviation cg_run := (cg_run ntheta n pnz fwd adj).

Lemma cg_direction_shape (i : nat) hist (grad d : arr3) :
  shape3 pnz n n grad →
  (∀ d0 g0, hist = Some (d0, g0) → shape3 pnz n n d0) →
  cg_direction i hist grad = Done d → shape3 pnz n n d.
Proof.
  intros Hgrad Hhist. unfold cg_direction. case_decide.
  - intros [= <-]. by apply map3_shape.
  - destruct hist as [[d0 g0]|]; [|done]. intros [= <-].
    apply zip3_shape; [by apply map3_shape|]. apply map3_shape. by eapply Hhist.
Qed.

Lemma cg_run_shape fuel xi0 (u : arr3) (i : nat) s :
  shape3 pnz n n u → cg_run fuel xi0 u i = Done s →
  shape3 pnz n n (cg_u s) ∧
  ∀ d g, cg_hist s = Some (d, g) → shape3 pnz n n d.
Proof.
  intros Hu. revert s. induction i as [|i IH]; intros s.
  { intros [= <-]. by split. }
  rewrite cg_run_S. destruct (cg_run fuel xi0 u i) as [s0| |]; [|done..].
  destruct (IH s0 eq_refl) as [Hu0 Hh0]. simpl. unfold cg_body.
  set (grad := a3divr _ _).
  assert (shape3 pnz n n grad) as Hgrad.
  { apply map3_shape, adj_tomo_shape. }
  destruct (cg_direction i (cg_hist s0) grad) as [d| |] eqn:Hd; [|done..].
  pose proof (cg_direction_shape _ _ _ _ Hgrad Hh0 Hd) as Hdshape.
  simpl. destruct (line_search _ _ _ _ _) as [g| |]; [|done..].
  simpl. intros [= <-]. simpl. split.
  - apply zip3_shape; [done|]. by apply map3_shape.
  - by intros d' g' [= <- <-].
Qed.


End Monotone.

(** ** The properties on the small solvers *)

Lemma shape211_inv (u : arr3) :
  shape3 2 1 1 u → ∃ a b : C, u = [[[a]]; [[b]]].
Proof.
  intros [Hlen Hrows].
  destruct u as [|s1 [|s2 [|]]]; try done.
  apply Forall_cons in Hrows as [[H1 H1'] Hrows].
  apply Forall_cons in Hrows as [[H2 H2'] _].
  destruct s1 as [|r1 [|]]; try done. destruct s2 as [|r2 [|]]; try done.
  apply Forall_cons in H1' as [Hr1 _]. apply Forall_cons in H2' as [Hr2 _].
  destruct r1 as [|a [|]]; try done. destruct r2 as [|b [|]]; try done.
  by exists a, b.
Qed.

Lemma shape121_inv (p : arr3) :
  shape3 1 2 1 p → ∃ c d : C, p = [[[c]; [d]]].
Proof.
  intros [Hlen Hrows].
  destruct p as [|s [|]]; try done.
  apply Forall_cons in Hrows as [[H1 H1'] _].
  destruct s as [|r1 [|r2 [|]]]; try done.
  apply Forall_cons in H1' as [Hr1 H1'].
  apply Forall_cons in H1' as [Hr2 _].
  destruct r1 as [|c [|]]; try done. destruct r2 as [|d [|]]; try done.
  by exists c, d.
Qed.


Lemma col_adjoint (u p : arr3) :
  shape3 2 1 1 u → shape3 1 2 1 p →
  vdot (fwd_tomo 1 1 2 Voxel.fwd_col u) p
  = vdot u (adj_tomo 1 2 Voxel.adj_col p).
Proof.
  intros Hu Hp.
  destruct (shape211_inv u Hu) as (a & b & ->).
  destruct (shape121_inv p Hp) as (c & d & ->).
  apply C_eq; cbn; ring.
Qed.

(** Four slices in partitions of two. *)
Lemma fwd_tomo_batch_partitions_witness :
  ((0 < 2)%nat ∧ (4 mod 2 = 0)%nat ∧ shape3 4 1 1 Voxel.vol4) ∧
  ∃ res : arr3,
    fwd_tomo_batch 1 4 1 2 Voxel.fwd_col Voxel.vol4 = Done res ∧
    res = concat1 1
            ((λ k, fwd_tomo 1 1 2 Voxel.fwd_col
                     (slice0 (k * 2) ((k + 1) * 2) Voxel.vol4))
               <$> seq 0 (4 / 2)) ∧
    ∀ k : nat, (k < 4 / 2)%nat →
      slice1 (k * 2) ((k + 1) * 2) res
      = fwd_tomo 1 1 2 Voxel.fwd_col (slice0 (k * 2) ((k + 1) * 2) Voxel.vol4).
Proof.
  assert (shape3 4 1 1 Voxel.vol4) as Hv by (split; [done|repeat constructor]).
  split; [split_and!; [lia|reflexivity|done]|].
  apply (fwd_tomo_batch_partitions 1 4 1 2 Voxel.fwd_col Voxel.vol4);
    [lia|reflexivity|done].
Defined.

(** Three slices in partitions of two, no iteration. *)
Lemma cg_tomo_batch_zero_iter_witness :
  ((0 < 2)%nat ∧ Voxel.heap1 Voxel.vol3 !! 1%positive = Some Voxel.vol3 ∧
   shape3 3 1 1 Voxel.vol3 ∧ shape3 1 3 1 Voxel.proj3) ∧
  ∃ r : loc,
    cg_tomo_batch 1 3 1 2 Voxel.fwd_col Voxel.adj_col 5 Voxel.proj3 1%positive 0
      (Voxel.heap1 Voxel.vol3)
    = (Done r, <[r:=Voxel.vol3]> (Voxel.heap1 Voxel.vol3)) ∧
    Voxel.heap1 Voxel.vol3 !! r = None.
Proof.
  assert (shape3 3 1 1 Voxel.vol3) as Hv by (split; [done|repeat constructor]).
  assert (shape3 1 3 1 Voxel.proj3) as Hp by (split; [done|repeat constructor]).
  split; [split_and!; [lia|reflexivity|done|done]|].
  apply (cg_tomo_batch_zero_iter 1 3 1 2 Voxel.fwd_col Voxel.adj_col 5
           Voxel.proj3 1%positive (Voxel.heap1 Voxel.vol3) Voxel.vol3);
    [lia|reflexivity|done|done].
Defined.


(** The column pair on four slices in partitions of two. *)
Lemma batch_adjoint_witness :
  ((0 < 2)%nat ∧ (4 mod 2 = 0)%nat ∧
   shape3 4 1 1 Voxel.vol4 ∧ shape3 1 4 1 Voxel.proj4) ∧
  ∃ Ru Ap : arr3,
    fwd_tomo_batch 1 4 1 2 Voxel.fwd_col Voxel.vol4 = Done Ru ∧
    adj_tomo_batch 4 1 2 Voxel.adj_col Voxel.proj4 = Done Ap ∧
    vdot Ru Voxel.proj4 = vdot Voxel.vol4 Ap.
Proof.
  assert (shape3 4 1 1 Voxel.vol4) as Hv by (split; [done|repeat constructor]).
  assert (shape3 1 4 1 Voxel.proj4) as Hp by (split; [done|repeat constructor]).
  split; [split_and!; [lia|reflexivity|done|done]|].
  apply (batch_adjoint 1 4 1 2 Voxel.fwd_col Voxel.adj_col Voxel.vol4 Voxel.proj4);
    [exact col_adjoint|lia|reflexivity|done|done].
Defined.

(** Three slices in partitions of two: the third is left alone. *)
Lemma batch_truncation_witness :
  (0 < 2)%nat ∧
  (∃ res : arr3,
     fwd_tomo_batch 1 3 1 2 Voxel.fwd_col Voxel.vol3 = Done res ∧
     slice1 (3 / 2 * 2) 3 res = zeros3 1 (3 - 3 / 2 * 2) 1) ∧
  (∃ res : arr3,
     adj_tomo_batch 3 1 2 Voxel.adj_col Voxel.proj3 = Done res ∧
     drop (3 / 2 * 2) res = zeros3 (3 - 3 / 2 * 2) 1 1) ∧
  (∃ out h',
     cg_tomo_batch 1 3 1 2 Voxel.fwd_col Voxel.adj_col 5 Voxel.proj3
       1%positive 2 (Voxel.heap1 Voxel.vol3) = (out, h') ∧
     (out = OutOfFuel ∨
      ∃ (r : loc) (v' : arr3),
        out = Done r ∧ h' !! r = Some v' ∧ length v' = 3%nat ∧
        drop (3 / 2 * 2) v' = drop (3 / 2 * 2) Voxel.vol3)).
Proof.
  assert (shape3 3 1 1 Voxel.vol3) as Hv by (split; [done|repeat constructor]).
  assert (shape3 1 3 1 Voxel.proj3) as Hp by (split; [done|repeat constructor]).
  split; [lia|].
  destruct (batch_truncation 1 3 1 2 Voxel.fwd_col Voxel.adj_col ltac:(lia))
    as (Hf & Ha & Hcg).
  split_and!.
  - destruct (Hf Voxel.vol3 Hv) as (res & E & Hz & _). by exists res.
  - destruct (Ha Voxel.proj3 Hp) as (res & E & Hz & _). by exists res.
  - by apply (Hcg 5%nat Voxel.proj3 1%positive 2%nat (Voxel.heap1 Voxel.vol3)
                Voxel.vol3).
Defined.

(** * Further properties of the batched operators *)

Lemma slice0_concat {A : Type} (m k : nat) (parts : list (list A)) (F : list A) :
  Forall (λ F, length F = m) parts →
  parts !! k = Some F →
  slice0 (k * m) (k * m + m) (concat parts) = F.
Proof.
  intros Hparts. revert k F. unfold slice0.
  induction Hparts as [|G parts HG _ IH]; intros k F Hk; [done|].
  replace (k * m + m - k * m)%nat with m by lia.
  destruct k as [|k]; simpl in *.
  - injection Hk as ->. by rewrite drop_0, take_app_length'.
  - rewrite drop_app_ge by lia.
    replace (m + k * m - length G)%nat with (k * m)%nat by lia.
    specialize (IH k F Hk).
    by replace (k * m + m - k * m)%nat with m in IH by lia.
Qed.

Lemma take_ids_seq_raise {A : Type} (l : list A) (a m : nat) :
  (length l < a + m)%nat → (0 < m)%nat →
  take_ids l (seq a m) = Raise IndexError.
Proof.
  revert a. induction m as [|m IH]; intros a Hlen Hm; [lia|].
  simpl. unfold getitem.
  destruct (l !! a) as [x|] eqn:Hx; [|done]. simpl.
  apply lookup_lt_Some in Hx.
  rewrite IH by lia. done.
Qed.

Section BatchMore.
Context (ntheta nz n pnz : nat).
Context (fwd adj : arr3 → nat → nat → nat → C).

Local Abbreviation fwd_tomo := (fwd_tomo ntheta n pnz fwd).
Local Abbreviation adj_tomo := (adj_tomo n pnz adj).
Local Abbreviation fwd_tomo_batch := (fwd_tomo_batch ntheta nz n pnz fwd).
Local Abbreviation adj_tomo_batch := (adj_tomo_batch nz n pnz adj).
Local Abbreviation cg_tomo_batch := (cg_tomo_batch ntheta nz n pnz fwd adj).
Local Abbreviation fwd_parts := (fwd_parts ntheta n pnz fwd).
Local Abbreviation adj_parts := (adj_parts n pnz adj).

(** X1.  When [nz] is an exact multiple of [pnz], [adj_tomo_batch(data)] is
    the concatenation along the depth axis of [adj_tomo] applied to each
    depth partition [data[:, k*pnz:(k+1)*pnz]]. *)
Theorem adj_tomo_batch_partitions (data : arr3) :
  (0 < pnz)%nat → (nz mod pnz = 0)%nat → shape3 ntheta nz n data →
  ∃ res : arr3,
    adj_tomo_batch data = Done res ∧
    res = concat ((λ k, adj_tomo (slice1 (k * pnz) ((k + 1) * pnz) data))
                    <$> seq 0 (nz / pnz)) ∧
    ∀ k : nat, (k < nz / pnz)%nat →
      slice0 (k * pnz) ((k + 1) * pnz) res
      = adj_tomo (slice1 (k * pnz) ((k + 1) * pnz) data).
Proof.
  intros Hpnz Hmod Hshape.
  pose proof (shape3_rows _ _ _ _ Hshape) as Hrows.
  assert (nz = nz / pnz * pnz)%nat as HK.
  { rewrite Nat.mul_comm. by apply Nat.Div0.div_exact. }
  exists (concat (adj_parts (nz / pnz) data)). split_and!; [|done|].
  - rewrite adj_tomo_batch_closed; [|done|].
    + replace (nz - nz / pnz * pnz)%nat with 0%nat by lia.
      simpl. by rewrite app_nil_r.
    + eapply Forall_impl; [exact Hrows|]. simpl. intros; lia.
  - intros k Hk.
    replace ((k + 1) * pnz)%nat with (k * pnz + pnz)%nat by lia.
    apply slice0_concat; [apply adj_parts_shape|].
    unfold adj_parts. rewrite list_lookup_fmap, lookup_seq_lt by done.
    simpl. unfold proj_part. do 3 f_equal. lia.
Qed.

(** X2.  The batched pair composes partition by partition: for a volume
    whose depth is an exact multiple of [pnz], [adj_tomo_batch] accepts the
    output of [fwd_tomo_batch] and the result is the concatenation of
    [adj_tomo(fwd_tomo(.))] over the depth partitions. *)
Theorem adj_fwd_batch_partitions (u : arr3) :
  (0 < pnz)%nat → (nz mod pnz = 0)%nat → shape3 nz n n u →
  ∃ Ru res : arr3,
    fwd_tomo_batch u = Done Ru ∧
    adj_tomo_batch Ru = Done res ∧
    res = concat ((λ k, adj_tomo (fwd_tomo (slice0 (k * pnz) ((k + 1) * pnz) u)))
                    <$> seq 0 (nz / pnz)).
Proof.
  intros Hpnz Hmod Hshape.
  pose proof (shape3_length _ _ _ _ Hshape) as Hu.
  assert (nz = nz / pnz * pnz)%nat as HK.
  { rewrite Nat.mul_comm. by apply Nat.Div0.div_exact. }
  destruct (concat1_shape ntheta pnz _ (fwd_parts_shape ntheta n pnz fwd (nz / pnz) u))
    as [Hlen Hrows].
  rewrite length_fwd_parts in Hrows.
  exists (concat1 ntheta (fwd_parts (nz / pnz) u)). eexists. split_and!.
  - rewrite fwd_tomo_batch_closed by lia.
    replace (nz - nz / pnz * pnz)%nat with 0%nat by lia.
    f_equal. unfold zeros3. simpl. by apply hcat_nil_r.
  - rewrite adj_tomo_batch_closed; [done|done|].
    eapply Forall_impl; [exact Hrows|]. simpl. intros; lia.
  - replace (nz - nz / pnz * pnz)%nat with 0%nat by lia.
    simpl. rewrite app_nil_r. f_equal.
    unfold adj_parts. apply list_fmap_ext. intros i k Hk. simpl.
    apply lookup_seq in Hk as [-> Hlt]. simpl. f_equal.
    unfold proj_part.
    replace ((i + 1) * pnz)%nat with (i * pnz + pnz)%nat by lia.
    apply (slice1_concat1 ntheta); [apply fwd_parts_shape|].
    unfold fwd_parts. rewrite list_lookup_fmap, lookup_seq_lt by done.
    simpl. unfold vol_part. do 3 f_equal. lia.
Qed.

End BatchMore.

(** ** Shapes of the results *)

Lemma for_each_invariant {A S : Type} (body : A → S → result S) (I : S → Prop)
    (l : list A) :
  (∀ x s s', I s → body x s = Done s' → I s') →
  ∀ s s', I s → for_each body l s = Done s' → I s'.
Proof.
  intros Hbody. induction l as [|x l IH]; intros s s' HI; simpl.
  { by intros [= <-]. }
  destruct (body x s) as [s1| |] eqn:E; simpl; [|done..].
  apply IH. by eapply Hbody.
Qed.

Section AssignShape.
Context {A : Type} (P : A → Prop).
Implicit Types (l v : list A).

Lemma assign_each_Forall l ids v l' :
  assign_each l ids v = Done l' → Forall P l → Forall P v →
  Forall P l' ∧ length l' = length l.
Proof.
  revert l v. induction ids as [|i ids IH]; intros l v; simpl.
  { by intros [= <-]. }
  destruct v as [|x v]; [by intros [= <-]|].
  unfold setitem. case_decide; [|done]. simpl.
  intros Hrec Hl Hv. apply Forall_cons in Hv as [Hx Hv].
  destruct (IH _ _ Hrec) as [HP Hlen]; [by apply Forall_insert|done|].
  split; [done|]. by rewrite Hlen, length_insert.
Qed.

Lemma assign_ids_Forall l ids v l' :
  assign_ids l ids v = Done l' → Forall P l → Forall P v →
  Forall P l' ∧ length l' = length l.
Proof. unfold assign_ids. case_decide; [apply assign_each_Forall|done]. Qed.

End AssignShape.

Lemma assign_rows_shape (b c : nat) (ids : list nat) (res v res' : arr3) :
  map2_result (λ row vrow, assign_ids row ids vrow) res v = Done res' →
  length v = length res →
  Forall (λ r, length r = b ∧ Forall (λ s, length s = c) r) res →
  Forall (Forall (λ s, length s = c)) v →
  length res' = length res ∧
  Forall (λ r, length r = b ∧ Forall (λ s, length s = c) r) res'.
Proof.
  intros Hrun Hlen Hres. revert v res' Hrun Hlen.
  induction Hres as [|row res [Hb Hc] _ IH]; intros v res' Hrun Hlen Hv.
  { injection Hrun as <-. by split. }
  destruct v as [|vrow v]; [done|]. simpl in Hrun.
  apply Forall_cons in Hv as [Hvrow Hv].
  destruct (assign_ids row ids vrow) as [row'| |] eqn:Erow; [|done..].
  simpl in Hrun.
  destruct (map2_result _ res v) as [rest| |] eqn:Erest; [|done..].
  simpl in Hrun. injection Hrun as <-.
  destruct (IH v rest Erest ltac:(simpl in Hlen; lia) Hv) as [Hl Hrest].
  destruct (assign_ids_Forall _ _ _ _ _ Erow Hc Hvrow) as [Hc' Hl'].
  split; [simpl; lia|]. constructor; [|done]. split; [lia|done].
Qed.

Lemma assign_ids1_shape (a b c : nat) (ids : list nat) (res v res' : arr3) :
  assign_ids1 res ids v = Done res' →
  shape3 a b c res → Forall (Forall (λ s, length s = c)) v →
  shape3 a b c res'.
Proof.
  unfold assign_ids1. case_decide as Hlen; [|done].
  intros Hrun [Hl Hrows] Hv.
  destruct (assign_rows_shape b c ids res v res' Hrun Hlen Hrows Hv) as [Hl' Hr'].
  split; [lia|done].
Qed.

Lemma shape3_inner (a b c : nat) (x : arr3) :
  shape3 a b c x → Forall (Forall (λ s, length s = c)) x.
Proof. intros [_ H]. eapply Forall_impl; [exact H|]. by intros r [_ ?]. Qed.

Section BatchShape.
Context (ntheta nz n pnz : nat).
Context (fwd adj : arr3 → nat → nat → nat → C).

Local Abbreviation fwd_tomo := (fwd_tomo ntheta n pnz fwd).
Local Abbreviation adj_tomo := (adj_tomo n pnz adj).
Local Abbreviation fwd_tomo_batch := (fwd_tomo_batch ntheta nz n pnz fwd).
Local Abbreviation adj_tomo_batch := (adj_tomo_batch nz n pnz adj).
Local Abbreviation cg_tomo_batch := (cg_tomo_batch ntheta nz n pnz fwd adj).

(** [fwd_tomo] and [adj_tomo] return an array of the shape of the
    buffer they allocate, [(ntheta, pnz, n)] and [(pnz, n, n)], whatever the
    shape of their argument. *)
Lemma tomo_result_shapes :
  (∀ u : arr3, shape3 ntheta pnz n (fwd_tomo u)) ∧
  (∀ data : arr3, shape3 pnz n n (adj_tomo data)).
Proof. split; intros x; apply fill3_shape, zeros3_shape. Qed.

(** X3.  Whenever the batched operators return, on any input and whether or
    not [pnz] divides [nz], the result has the full shape:
    [(ntheta, nz, n)] for [fwd_tomo_batch], [(nz, n, n)] for
    [adj_tomo_batch]. *)
Theorem batch_result_shapes (u data Ru Ap : arr3) :
  fwd_tomo_batch u = Done Ru → adj_tomo_batch data = Done Ap →
  shape3 ntheta nz n Ru ∧ shape3 nz n n Ap.
Proof.
  unfold fwd_tomo_batch, adj_tomo_batch.
  destruct (floordiv nz pnz) as [nparts| |]; [|done..]. simpl.
  intros HRu HAp. split.
  - revert HRu. apply for_each_invariant; [|apply zeros3_shape].
    intros k res res' Hres. cbv zeta.
    destruct (take_ids u _) as [u_gpu| |]; [|done..]. simpl.
    intros Hrun. eapply assign_ids1_shape; [exact Hrun|done|].
    apply (shape3_inner ntheta pnz), fwd_tomo_shape.
  - revert HAp. apply for_each_invariant; [|apply zeros3_shape].
    intros k res res' [Hl Hrows]. cbv zeta.
    destruct (take_ids1 data _) as [data_gpu| |]; [|done..]. simpl.
    intros Hrun.
    pose proof (adj_tomo_shape n pnz adj data_gpu) as [_ Hv].
    destruct (assign_ids_Forall _ _ _ _ _ Hrun Hrows Hv) as [Hr' Hl'].
    split; [lia|done].
Qed.

(** X4.  A volume with fewer depth slices than the partitions cover makes
    [fwd_tomo_batch] raise [IndexError]: the partitions that fit are
    transformed, and reading the first one that does not fit fails. *)
Theorem fwd_tomo_batch_short (u : arr3) :
  (0 < pnz)%nat → (length u < nz / pnz * pnz)%nat →
  fwd_tomo_batch u = Raise IndexError.
Proof.
  intros Hpnz Hu.
  assert (nz / pnz * pnz ≤ nz)%nat as HK.
  { rewrite Nat.mul_comm. apply Nat.Div0.mul_div_le. }
  set (j0 := (length u / pnz)%nat).
  assert (j0 * pnz ≤ length u)%nat as Hj0.
  { unfold j0. rewrite Nat.mul_comm. apply Nat.Div0.mul_div_le. }
  assert (length u < (j0 + 1) * pnz)%nat as Hj1.
  { unfold j0. pose proof (Nat.mul_succ_div_gt (length u) pnz ltac:(lia)). lia. }
  assert (j0 < nz / pnz)%nat as Hlt by nia.
  unfold fwd_tomo_batch, floordiv. rewrite decide_False by lia. simpl.
  replace (nz / pnz)%nat with (j0 + S (nz / pnz - j0 - 1))%nat by lia.
  rewrite seq_app, for_each_app, fwd_batch_loop by nia.
  simpl. unfold arange.
  rewrite take_ids_seq_raise; [done|lia|lia].
Qed.

(** X5.  When the partition is deeper than the volume ([nz < pnz]) the loops
    have no pass: [fwd_tomo_batch] and [adj_tomo_batch] return zeros
    without reading their argument, and [cg_tomo_batch] returns a copy of
    [init] without running the solver, whatever [xi0] and [titer]. *)
Theorem oversized_partition :
  (nz < pnz)%nat →
  (∀ u : arr3, fwd_tomo_batch u = Done (zeros3 ntheta nz n)) ∧
  (∀ data : arr3, adj_tomo_batch data = Done (zeros3 nz n n)) ∧
  (∀ fuel (xi0 : arr3) (init : loc) (titer : nat) (h : heap) (v : arr3),
     h !! init = Some v →
     cg_tomo_batch fuel xi0 init titer h
     = (Done (fresh (dom h)), <[fresh (dom h) := v]> h)).
Proof.
  intros Hlt. pose proof (Nat.div_small nz pnz Hlt) as Hdiv.
  split_and!.
  - intros u. unfold fwd_tomo_batch, floordiv.
    rewrite decide_False by lia. simpl. by rewrite Hdiv.
  - intros data. unfold adj_tomo_batch, floordiv.
    rewrite decide_False by lia. simpl. by rewrite Hdiv.
  - intros fuel xi0 init titer h v Hinit.
    unfold cg_tomo_batch, floordiv.
    unfold mbind at 1, M_bind at 1, ndarray_copy. rewrite Hinit.
    unfold mbind at 1, M_bind at 1, lift. rewrite decide_False by lia.
    by rewrite Hdiv.
Qed.

(** X6.  With [pnz = 0] every batched method raises [ZeroDivisionError] at
    [nz // pnz]; [cg_tomo_batch] has copied [init] by then, and [init]
    itself is as it was. *)
Theorem zero_partition_size :
  pnz = 0%nat →
  (∀ u : arr3, fwd_tomo_batch u = Raise ZeroDivisionError) ∧
  (∀ data : arr3, adj_tomo_batch data = Raise ZeroDivisionError) ∧
  (∀ fuel (xi0 : arr3) (init : loc) (titer : nat) (h : heap) (v : arr3),
     h !! init = Some v →
     ∃ h', cg_tomo_batch fuel xi0 init titer h = (Raise ZeroDivisionError, h') ∧
           h' !! init = Some v).
Proof.
  intros Hz. split_and!.
  - intros u. unfold fwd_tomo_batch, floordiv. by rewrite decide_True.
  - intros data. unfold adj_tomo_batch, floordiv. by rewrite decide_True.
  - intros fuel xi0 init titer h v Hinit.
    unfold cg_tomo_batch, floordiv.
    unfold mbind at 1, M_bind at 1, ndarray_copy. rewrite Hinit.
    unfold mbind at 1, M_bind at 1, lift. rewrite decide_True by done.
    eexists. split; [done|].
    rewrite lookup_insert_ne; [done|].
    intros Heq. pose proof (is_fresh (dom h)) as Hf.
    rewrite Heq in Hf. apply Hf, elem_of_dom. by eexists.
Qed.

End BatchShape.

(** * Further properties of the line search and of the solver *)

(** X7.  If some step [gamma0 * 2^(-k)] of the halving sequence passes the
    test, [line_search] returns after at most [k] halvings: every run with
    more than [k] units of fuel returns the same step [gamma0 * 2^(-k')],
    [k' <= k]. *)
Theorem line_search_terminates minf gamma0 Ru Rd (k : nat) :
  0 <= minf Ru - minf (a3add Ru (a3scale (gamma0 * half ^ k) Rd)) →
  ∃ k' : nat, (k' ≤ k)%nat ∧
    ∀ fuel : nat, (k < fuel)%nat →
      line_search fuel minf gamma0 Ru Rd = Done (gamma0 * half ^ k').
Proof.
  intros Hpass.
  assert (¬ increases minf Ru Rd (gamma0 * half ^ k)) as Hok.
  { unfold increases. by apply Qcle_not_lt. }
  destruct (line_search_finds (S k) minf gamma0 Ru Rd k ltac:(lia) Hok) as [g Hg].
  destruct (line_search_done _ _ _ _ _ _ Hg) as (k' & _ & -> & Hok' & Hfail').
  assert (k' ≤ k)%nat as Hle.
  { destruct (decide (k' ≤ k)%nat); [done|]. exfalso. apply Hok, Hfail'. lia. }
  exists k'. split; [done|]. intros fuel Hfuel.
  destruct (line_search_finds fuel minf gamma0 Ru Rd k Hfuel Hok) as [g2 Hg2].
  destruct (line_search_done _ _ _ _ _ _ Hg2) as (k2 & _ & -> & Hok2 & Hfail2).
  rewrite Hg2. do 3 f_equal.
  destruct (Nat.lt_trichotomy k' k2) as [Hlt|[->|Hlt]]; [|done|].
  - exfalso. by apply Hok', Hfail2.
  - exfalso. by apply Hok2, Hfail'.
Qed.

(** ** Arrays of zeros *)

Lemma map3_zeros f (a b c : nat) :
  f C0 = C0 → map3 f (zeros3 a b c) = zeros3 a b c.
Proof.
  intros Hf. unfold map3, zeros3. rewrite !fmap_replicate. by rewrite Hf.
Qed.

Lemma zip3_zeros f (a b c : nat) :
  f C0 C0 = C0 → zip3 f (zeros3 a b c) (zeros3 a b c) = zeros3 a b c.
Proof.
  intros Hf. unfold zip3, zeros3. rewrite !zip_with_replicate. by rewrite Hf.
Qed.

Lemma zip3_zeros_r f (a b c : nat) (x : arr3) :
  (∀ z, f z C0 = z) → shape3 a b c x → zip3 f x (zeros3 a b c) = x.
Proof.
  intros Hf [Hlen Hrows]. unfold zip3, zeros3. subst a.
  induction Hrows as [|r x [Hb Hc] _ IH]; simpl; [done|].
  f_equal; [|exact IH]. subst b. clear IH.
  induction Hc as [|s r Hs _ IH]; simpl; [done|].
  f_equal; [|exact IH]. subst c. clear IH.
  induction s as [|z s IH]; simpl; [done|]. by rewrite Hf, IH.
Qed.

Lemma a3add_scaled_zeros (g : Qc) (a b c : nat) (x : arr3) :
  shape3 a b c x → a3add x (a3scale g (zeros3 a b c)) = x.
Proof.
  intros Hx. unfold a3scale. rewrite map3_zeros.
  - apply zip3_zeros_r; [|done]. intros z. apply C_eq; simpl; ring.
  - apply C_eq; simpl; ring.
Qed.

(** X8.  A zero direction ends the search at once: for any objective and
    any initial step, [line_search] returns the initial step unchanged. *)
Theorem line_search_zero_direction fuel minf gamma0 (a b c : nat) (Ru : arr3) :
  shape3 a b c Ru →
  line_search (S fuel) minf gamma0 Ru (zeros3 a b c) = Done gamma0.
Proof.
  intros HRu. simpl. rewrite a3add_scaled_zeros by done.
  rewrite bool_decide_eq_false_2; [done|].
  apply Qcle_not_lt. qc2q. lra.
Qed.

Lemma Qc_of_nat_pos (k : nat) : (0 < k)%nat → 0 < Qc_of_nat k.
Proof.
  intros Hk. unfold Qc_of_nat, Qc_of_Z, Qclt. simpl.
  rewrite Qred_correct. unfold Qlt, inject_Z. simpl. lia.
Qed.

Section CGMore.
Context (ntheta n pnz : nat).
Context (fwd adj : arr3 → nat → nat → nat → C).

Local Abbreviation fwd_tomo := (fwd_tomo ntheta n pnz fwd).
Local Abbreviation adj_tomo := (adj_tomo n pnz adj).
Local Abbreviation cg_run := (cg_run ntheta n pnz fwd adj).
Local Abbreviation cg_body := (cg_body ntheta n pnz fwd adj).
Local Abbreviation cg_tomo := (cg_tomo ntheta n pnz fwd adj).

Lemma cg_run_no_raise fuel xi0 (u : arr3) (i : nat) e :
  cg_run fuel xi0 u i ≠ Raise e.
Proof.
  revert e. induction i as [|i IH]; intros e; [done|].
  rewrite cg_run_S.
  destruct (cg_run fuel xi0 u i) as [s|e'|] eqn:Hs; simpl.
  2: { by destruct (IH e'). }
  2: { done. }
  unfold cg_body.
  assert (∃ d, cg_direction i (cg_hist s) (a3divr
            (adj_tomo (a3sub (fwd_tomo (cg_u s)) xi0))
            (cg_divisor ntheta n)) = Done d) as [d ->].
  { unfold cg_direction. destruct i as [|i]; simpl; [by eexists|].
    destruct (cg_run_hist _ _ _ _ _ _ _ _ _ _ Hs) as [[d0 g0] ->]. by eexists. }
  simpl. destruct (line_search _ _ _ _ _) as [g|e'|] eqn:Hls; simpl; [done| |done].
  by destruct (line_search_no_raise _ _ _ _ _ _ Hls).
Qed.

(** With positive dimensions the divisor [ntheta * n/2] is positive. *)
Lemma cg_divisor_pos : (0 < ntheta)%nat → (0 < n)%nat → 0 < cg_divisor ntheta n.
Proof.
  intros Ht Hn. unfold cg_divisor.
  pose proof (Qc_of_nat_pos _ Ht) as H1. pose proof (Qc_of_nat_pos _ Hn) as H2.
  qc2q. unfold Qdiv.
  apply Qmult_lt_0_compat; [by apply Qmult_lt_0_compat|].
  by apply Qinv_lt_0_compat.
Qed.

Lemma cg_run_grad_shape fuel xi0 (u : arr3) (i : nat) s d g :
  cg_run fuel xi0 u i = Done s → cg_hist s = Some (d, g) → shape3 pnz n n g.
Proof.
  destruct i as [|i]; [by intros [= <-]|].
  rewrite cg_run_S. destruct (cg_run fuel xi0 u i) as [s0| |]; [|done..].
  simpl. unfold cg_body.
  destruct (cg_direction _ _ _) as [d0| |]; [|done..]. simpl.
  destruct (line_search _ _ _ _ _) as [g0| |]; [|done..]. simpl.
  intros [= <-] [= _ <-]. apply map3_shape, adj_tomo_shape.
Qed.

(** X9.  On a partition [u] of shape [(pnz, n, n)] with data [xi0] of
    shape [(ntheta, pnz, n)], [cg_tomo] raises nothing.  The reads of [d]
    and [grad0] in a pass [i > 0] find them bound; and before every pass
    [u], [d] and [grad0] have the shape [(pnz, n, n)] of [grad], while
    [fwd_tomo(u)] and [fwd_tomo(d)] have the shape of [xi0], so that every
    element-wise operation of the loop meets operands of one shape.  A call
    either returns or stays in a line search. *)
Theorem cg_tomo_no_raise fuel xi0 (u : arr3) (titer : nat) :
  shape3 pnz n n u → shape3 ntheta pnz n xi0 →
  (∀ e, cg_tomo fuel xi0 u titer ≠ Raise e) ∧
  ∀ (i : nat) s, cg_run fuel xi0 u i = Done s →
    shape3 pnz n n (cg_u s) ∧
    same_shape (fwd_tomo (cg_u s)) xi0 ∧
    match cg_hist s with
    | Some (d, grad0) =>
        shape3 pnz n n d ∧ shape3 pnz n n grad0 ∧ same_shape (fwd_tomo d) xi0
    | None => i = 0%nat
    end.
Proof.
  intros Hu Hxi. split.
  { intros e. unfold cg_tomo.
    destruct (cg_run fuel xi0 u titer) as [s|e'|] eqn:Hs; simpl; [done| |done].
    by destruct (cg_run_no_raise _ _ _ _ _ Hs). }
  intros i s Hs.
  destruct (cg_run_shape _ _ _ _ _ _ _ _ _ _ Hu Hs) as [Hus Hds].
  split; [exact Hus|].
  split; [apply (shape3_same ntheta pnz n); [apply fwd_tomo_shape|done]|].
  destruct (cg_hist s) as [[d grad0]|] eqn:Hh.
  - split; [by eapply Hds|].
    split; [by eapply cg_run_grad_shape|].
    apply (shape3_same ntheta pnz n); [apply fwd_tomo_shape|done].
  - destruct i as [|i]; [done|].
    destruct (cg_run_hist _ _ _ _ _ _ _ _ _ _ Hs) as [? Hx]. congruence.
Qed.

(** X10.  On a partition-shaped [u], what [cg_tomo] returns has the shape
    [(pnz, n, n)] of a partition, whatever the shape of [xi0]. *)
Theorem cg_tomo_shape fuel xi0 (u w : arr3) (titer : nat) :
  shape3 pnz n n u → cg_tomo fuel xi0 u titer = Done w → shape3 pnz n n w.
Proof.
  intros Hu. unfold cg_tomo.
  destruct (cg_run fuel xi0 u titer) as [s| |] eqn:Hs; [|done..].
  simpl. intros [= <-].
  by destruct (cg_run_shape _ _ _ _ _ _ _ _ _ _ Hu Hs).
Qed.

(** X11.  The step of every pass is a positive power of one half: a pass
    that returns moves [u] by [2^(-(k+1)) * d] for some [k >= 0], so by at
    most half the direction. *)
Theorem cg_step_size fuel xi0 (u : arr3) (i : nat) s s' :
  cg_run fuel xi0 u i = Done s →
  cg_run fuel xi0 u (S i) = Done s' →
  ∃ (k : nat) (d grad : arr3),
    cg_hist s' = Some (d, grad) ∧
    cg_u s' = a3add (cg_u s) (a3scale (half ^ S k) d) ∧
    0 < half ^ S k ∧ half ^ S k <= half.
Proof.
  intros Hs Hs'. rewrite cg_run_S, Hs in Hs'. simpl in Hs'.
  unfold cg_body in Hs'.
  destruct (cg_direction _ _ _) as [d| |]; simpl in Hs'; [|done..].
  destruct (line_search _ _ _ _ _) as [g| |] eqn:Hls; simpl in Hs'; [|done..].
  injection Hs' as <-.
  destruct (line_search_done _ _ _ _ _ _ Hls) as (k & _ & -> & _).
  exists k. do 2 eexists. simpl. split; [done|]. split.
  - do 2 f_equal. change (half ^ S k) with (half * half ^ k). ring.
  - split; [exact (half_pow_pos (S k))|].
    pose proof (half_pow_le 1 (S k) ltac:(lia)) as Hle.
    replace (half ^ 1) with half in Hle by (simpl; ring). exact Hle.
Qed.

(** X12.  A stationary point stays put.  Take positive dimensions
    [ntheta] and [n], a partition [u] of shape [(pnz, n, n)] and data [xi0]
    of shape [(ntheta, pnz, n)].  If the gradient
    [adj_tomo(fwd_tomo(u) - xi0)] is zero and [fwd_tomo] maps the zero
    volume to zero, then the divisor [ntheta * n/2] is positive, every pass
    has gradient and direction zero, the line search returns at once, and
    [cg_tomo] returns [u] for any [titer]. *)
Theorem cg_tomo_stationary fuel xi0 (u : arr3) (titer : nat) :
  (0 < ntheta)%nat → (0 < n)%nat →
  shape3 pnz n n u → shape3 ntheta pnz n xi0 →
  adj_tomo (a3sub (fwd_tomo u) xi0) = zeros3 pnz n n →
  fwd_tomo (zeros3 pnz n n) = zeros3 ntheta pnz n →
  0 < Qc_of_nat ntheta * Qc_of_nat n / 2 ∧
  cg_tomo (S fuel) xi0 u titer = Done u.
Proof.
  intros Hnt Hn Hu _ Hgrad Hzero.
  split; [exact (cg_divisor_pos Hnt Hn)|].
  assert (∀ i, ∃ hist, cg_run (S fuel) xi0 u i = Done (CgVars u hist) ∧
            ∀ d g, hist = Some (d, g) → d = zeros3 pnz n n) as Hrun.
  { induction i as [|i (hist & IH & Hhist)].
    { exists None. by split. }
    rewrite cg_run_S, IH. cbn [mbind result_bind]. unfold cg_body.
    cbn [cg_u cg_hist]. rewrite Hgrad.
    assert (a3divr (zeros3 pnz n n) (cg_divisor ntheta n) = zeros3 pnz n n)
      as ->.
    { apply map3_zeros. apply C_eq; simpl; unfold Qcdiv; ring. }
    assert (cg_direction i hist (zeros3 pnz n n) = Done (zeros3 pnz n n)) as ->.
    { unfold cg_direction. case_decide.
      - f_equal. apply map3_zeros. apply C_eq; simpl; ring.
      - destruct hist as [[d0 g0]|].
        + rewrite (Hhist d0 g0 eq_refl). f_equal.
          unfold a3neg, a3cmul, a3add. rewrite !map3_zeros.
          * apply zip3_zeros. apply C_eq; simpl; ring.
          * apply C_eq; simpl; ring.
          * apply C_eq; simpl; ring.
        + destruct i as [|j]; [done|].
          destruct (cg_run_hist _ _ _ _ _ _ _ _ _ _ IH) as [? Hx]. done. }
    cbn [mbind result_bind]. rewrite Hzero.
    rewrite line_search_zero_direction by apply fwd_tomo_shape.
    cbn [mbind result_bind]. rewrite a3add_scaled_zeros by done.
    eexists. split; [done|]. by intros d g [= <- _]. }
  unfold cg_tomo. destruct (Hrun titer) as (hist & -> & _). done.
Qed.

End CGMore.

(** * Further properties of the partition-wise solver *)

Lemma for_eachM_app {A : Type} (body : A → M unit) (l1 l2 : list A) (h : heap) :
  for_eachM body (l1 ++ l2) h
  = match for_eachM body l1 h with
    | (Done _, h') => for_eachM body l2 h'
    | (Raise e, h') => (Raise e, h')
    | (OutOfFuel, h') => (OutOfFuel, h')
    end.
Proof.
  revert h. induction l1 as [|x l1 IH]; intros h; simpl; [done|].
  unfold mbind, M_bind. destruct (body x h) as [[[]| |] h1]; [apply IH|done..].
Qed.

Lemma for_eachM_single_eq {A : Type} (body : A → M unit) (x : A) (h : heap)
    (out : result unit * heap) :
  body x h = out →
  for_eachM body [x] h
  = match out with
    | (Done _, h') => (Done tt, h')
    | (Raise e, h') => (Raise e, h')
    | (OutOfFuel, h') => (OutOfFuel, h')
    end.
Proof.
  intros <-. simpl. unfold mbind, M_bind.
  by destruct (body x h) as [[[]| |] h1].
Qed.

Lemma map_result_snoc {A B : Type} (f : A → result B) (l : list A) (x : A) :
  map_result f (l ++ [x])
  = ys ← map_result f l; y ← f x; Done (ys ++ [y]).
Proof.
  induction l as [|a l IH]; simpl.
  { by destruct (f x). }
  destruct (f a) as [b| |]; simpl; [|done..].
  rewrite IH. destruct (map_result f l) as [ys| |]; simpl; [|done..].
  by destruct (f x).
Qed.

Lemma take_ids_outcome {A : Type} (l : list A) (ids : list nat) :
  (∃ xs, take_ids l ids = Done xs) ∨ take_ids l ids = Raise IndexError.
Proof.
  induction ids as [|i ids IH]; simpl; [by left; eexists|].
  unfold getitem. destruct (l !! i) as [x|]; simpl; [|by right].
  destruct IH as [[xs ->]| ->]; simpl; [left; by eexists|by right].
Qed.

Lemma take_ids1_raise {A : Type} (data : list (list A)) (a b : nat) :
  (a < b)%nat → Exists (λ row, (length row < b)%nat) data →
  take_ids1 data (arange a b) = Raise IndexError.
Proof.
  intros Hab. unfold take_ids1, arange.
  induction 1 as [row data Hrow|row data _ IH]; simpl.
  - rewrite take_ids_seq_raise; [done|lia|lia].
  - destruct (take_ids_outcome row (seq a (b - a))) as [[xs ->]| ->]; [|done].
    simpl. by rewrite IH.
Qed.

Section CGBatchMore.
Context (ntheta nz n pnz : nat).
Context (fwd adj : arr3 → nat → nat → nat → C).

Local Abbreviation cg_tomo := (cg_tomo ntheta n pnz fwd adj).
Local Abbreviation cg_tomo_batch := (cg_tomo_batch ntheta nz n pnz fwd adj).

(** The loop of [cg_tomo_batch] after [j] passes, against the solves of the
    first [j] partitions of the initial contents [v]. *)
Lemma cg_batch_loop fuel (xi0 : arr3) (titer : nat) (r : loc) (h : heap)
    (v : arr3) (j : nat) :
  (0 < pnz)%nat → (j * pnz ≤ nz)%nat → length v = nz →
  Forall (λ row, length row = nz) xi0 →
  let run :=
    for_eachM (λ k,
        let ids := arange (k * pnz) ((k + 1) * pnz) in
        uv ← load r;
        u_gpu ← lift (take_ids uv ids);
        xi0_gpu ← lift (take_ids1 xi0 ids);
        u_gpu' ← lift (cg_tomo fuel xi0_gpu u_gpu titer);
        uv' ← load r;
        w ← lift (assign_ids uv' ids u_gpu');
        store r w)
      (seq 0 j) (<[r:=v]> h) in
  match map_result
          (λ k, cg_tomo fuel (proj_part pnz k xi0) (vol_part pnz k v) titer)
          (seq 0 j) with
  | Done ws =>
      run = (Done tt, <[r := concat ws ++ drop (j * pnz) v]> h) ∧
      length (concat ws) = (j * pnz)%nat
  | Raise _ => False
  | OutOfFuel => run.1 = OutOfFuel
  end.
Proof.
  intros Hpnz Hj Hv Hxi. induction j as [|j IH]; cbv zeta.
  { simpl. rewrite drop_0. by split. }
  specialize (IH ltac:(lia)). cbv zeta in IH.
  rewrite seq_S, Nat.add_0_l, map_result_snoc, for_eachM_app.
  destruct (map_result _ (seq 0 j)) as [ws| |]; [|done|]; last first.
  { cbn [mbind result_bind]. by destruct (for_eachM _ _ _) as [[[]| |] h1]. }
  destruct IH as [-> Hlen]. cbn [mbind result_bind].
  set (vj := concat ws ++ drop (j * pnz) v).
  assert (length vj = nz) as Hvj.
  { unfold vj. rewrite length_app, length_drop. lia. }
  assert (vol_part pnz j vj = vol_part pnz j v) as Hpart.
  { unfold vol_part, slice0, vj. by rewrite drop_app_length'. }
  assert (Forall (λ row : arr2, ((j + 1) * pnz ≤ length row)%nat) xi0) as Hxi'.
  { eapply Forall_impl; [exact Hxi|]. simpl. intros; lia. }
  pose proof (cg_batch_pass ntheta n pnz fwd adj fuel xi0 titer r j
                (<[r:=vj]> h) vj (lookup_insert_eq _ _ _) ltac:(lia) Hxi')
    as Epass.
  rewrite Hpart in Epass.
  match goal with |- context [for_eachM ?b [j] _] =>
    rewrite (for_eachM_single_eq b j (<[r:=vj]> h) _ Epass)
  end.
  destruct (cg_tomo_outcome ntheta n pnz fwd adj fuel (proj_part pnz j xi0)
              (vol_part pnz j v) titer) as [->|(w & -> & Hw)].
  { unfold vol_part. rewrite length_slice0; lia. }
  { done. }
  rewrite decide_True by done. cbn [mbind result_bind]. split.
  - f_equal. rewrite insert_insert_eq. f_equal.
    rewrite concat_app. simpl. rewrite app_nil_r, <- app_assoc. f_equal.
    + unfold vj. by rewrite take_app_length'.
    + f_equal. unfold vj. rewrite drop_app_ge by lia. rewrite drop_drop.
      f_equal. lia.
  - rewrite concat_app, length_app. simpl. rewrite app_nil_r. lia.
Qed.

(** X13.  The partitions are solved independently: [cg_tomo_batch] returns
    exactly when [cg_tomo] returns on every depth partition of [init] and
    [xi0], and then the array it returns is the concatenation of those
    results, followed by the slices of [init] no partition covers. *)
Theorem cg_tomo_batch_partitions fuel (xi0 : arr3) (init : loc) (titer : nat)
    (h : heap) (v : arr3) :
  (0 < pnz)%nat → h !! init = Some v →
  shape3 nz n n v → shape3 ntheta nz n xi0 →
  match map_result
          (λ k, cg_tomo fuel (proj_part pnz k xi0) (vol_part pnz k v) titer)
          (seq 0 (nz / pnz)) with
  | Done ws =>
      cg_tomo_batch fuel xi0 init titer h
      = (Done (fresh (dom h)),
         <[fresh (dom h) := concat ws ++ drop (nz / pnz * pnz) v]> h)
  | Raise _ => False
  | OutOfFuel => (cg_tomo_batch fuel xi0 init titer h).1 = OutOfFuel
  end.
Proof.
  intros Hpnz Hinit Hv Hxi.
  assert (nz / pnz * pnz ≤ nz)%nat as HK.
  { rewrite Nat.mul_comm. apply Nat.Div0.mul_div_le. }
  pose proof (cg_batch_loop fuel xi0 titer (fresh (dom h)) h v (nz / pnz)
    Hpnz HK (shape3_length _ _ _ _ Hv) (shape3_rows _ _ _ _ Hxi)) as Hloop.
  cbv zeta in Hloop. unfold lift in Hloop.
  destruct (map_result _ (seq 0 (nz / pnz))) as [ws| |]; [|done|].
  all: unfold cg_tomo_batch, floordiv.
  all: unfold mbind at 1, M_bind at 1, ndarray_copy; rewrite Hinit.
  all: unfold mbind at 1, M_bind at 1, lift; rewrite decide_False by lia.
  all: unfold mbind at 1, M_bind at 1; cbv zeta.
  - destruct Hloop as [Hloop _]. by rewrite Hloop.
  - destruct (for_eachM _ _ _) as [[[]| |] h1]; simpl in *; congruence.
Qed.

(** X14.  [xi0[:, ids]] is read before the solver runs: when the volume
    has at least one partition and a row of [xi0] is shorter than a
    partition, [cg_tomo_batch] raises [IndexError] in its first pass,
    whatever [titer], and leaves only the copy of [init] behind. *)
Theorem cg_tomo_batch_short_data fuel (xi0 : arr3) (init : loc) (titer : nat)
    (h : heap) (v : arr3) :
  (0 < pnz)%nat → (pnz ≤ nz)%nat →
  h !! init = Some v → length v = nz →
  Exists (λ row, (length row < pnz)%nat) xi0 →
  cg_tomo_batch fuel xi0 init titer h
  = (Raise IndexError, <[fresh (dom h) := v]> h).
Proof.
  intros Hpnz Hnz Hinit Hv Hshort.
  assert (1 ≤ nz / pnz)%nat as HK by (by apply Nat.div_le_lower_bound; lia).
  unfold cg_tomo_batch, floordiv.
  unfold mbind at 1, M_bind at 1, ndarray_copy. rewrite Hinit.
  unfold mbind at 1, M_bind at 1, lift. rewrite decide_False by lia.
  unfold mbind at 1, M_bind at 1.
  destruct (nz / pnz)%nat as [|K]; [lia|]. simpl.
  unfold mbind, M_bind, load. rewrite lookup_insert_eq.
  rewrite (take_ids_arange v 0 (pnz + 0)) by lia.
  rewrite take_ids1_raise; [done|lia|].
  eapply Exists_impl; [exact Hshort|]. simpl. intros; lia.
Qed.

End CGBatchMore.

(** * The further properties on the small solvers *)

(** Four projection columns in partitions of two. *)
Lemma adj_tomo_batch_partitions_witness :
  ((0 < 2)%nat ∧ (4 mod 2 = 0)%nat ∧ shape3 1 4 1 Voxel.proj4) ∧
  ∃ res : arr3,
    adj_tomo_batch 4 1 2 Voxel.adj_col Voxel.proj4 = Done res ∧
    res = concat ((λ k, adj_tomo 1 2 Voxel.adj_col
                          (slice1 (k * 2) ((k + 1) * 2) Voxel.proj4))
                    <$> seq 0 (4 / 2)) ∧
    ∀ k : nat, (k < 4 / 2)%nat →
      slice0 (k * 2) ((k + 1) * 2) res
      = adj_tomo 1 2 Voxel.adj_col (slice1 (k * 2) ((k + 1) * 2) Voxel.proj4).
Proof.
  assert (shape3 1 4 1 Voxel.proj4) as Hp by (split; [done|repeat constructor]).
  split; [split_and!; [lia|reflexivity|done]|].
  apply (adj_tomo_batch_partitions 1 4 1 2 Voxel.adj_col Voxel.proj4);
    [lia|reflexivity|done].
Defined.

(** Four slices in partitions of two, there and back. *)
Lemma adj_fwd_batch_partitions_witness :
  ((0 < 2)%nat ∧ (4 mod 2 = 0)%nat ∧ shape3 4 1 1 Voxel.vol4) ∧
  ∃ Ru res : arr3,
    fwd_tomo_batch 1 4 1 2 Voxel.fwd_col Voxel.vol4 = Done Ru ∧
    adj_tomo_batch 4 1 2 Voxel.adj_col Ru = Done res ∧
    res = concat ((λ k, adj_tomo 1 2 Voxel.adj_col
                          (fwd_tomo 1 1 2 Voxel.fwd_col
                             (slice0 (k * 2) ((k + 1) * 2) Voxel.vol4)))
                    <$> seq 0 (4 / 2)).
Proof.
  assert (shape3 4 1 1 Voxel.vol4) as Hv by (split; [done|repeat constructor]).
  split; [split_and!; [lia|reflexivity|done]|].
  apply (adj_fwd_batch_partitions 1 4 1 2 Voxel.fwd_col Voxel.adj_col Voxel.vol4);
    [lia|reflexivity|done].
Defined.

(** Three slices in partitions of two: the results keep depth three. *)
Lemma batch_result_shapes_witness :
  ∃ Ru Ap : arr3,
    (fwd_tomo_batch 1 3 1 2 Voxel.fwd_col Voxel.vol3 = Done Ru ∧
     adj_tomo_batch 3 1 2 Voxel.adj_col Voxel.proj3 = Done Ap) ∧
    shape3 1 3 1 Ru ∧ shape3 3 1 1 Ap.
Proof.
  do 2 eexists. split; [split; vm_compute; reflexivity|].
  apply (batch_result_shapes 1 3 1 2 Voxel.fwd_col Voxel.adj_col
           Voxel.vol3 Voxel.proj3);
    vm_compute; reflexivity.
Defined.

(** A volume of three slices where four are announced. *)
Lemma fwd_tomo_batch_short_witness :
  ((0 < 2)%nat ∧ (length Voxel.vol3 < 4 / 2 * 2)%nat) ∧
  fwd_tomo_batch 1 4 1 2 Voxel.fwd_col Voxel.vol3 = Raise IndexError.
Proof.
  split; [split; [lia|simpl; lia]|].
  apply (fwd_tomo_batch_short 1 4 1 2 Voxel.fwd_col Voxel.vol3); [lia|simpl; lia].
Defined.

(** One slice, partitions of two. *)
Lemma oversized_partition_witness :
  (1 < 2)%nat ∧
  (∀ u : arr3, fwd_tomo_batch 1 1 1 2 Voxel.fwd_col u = Done (zeros3 1 1 1)) ∧
  (∀ data : arr3, adj_tomo_batch 1 1 2 Voxel.adj_col data = Done (zeros3 1 1 1)) ∧
  (∀ fuel (xi0 : arr3) (init : loc) (titer : nat) (h : heap) (v : arr3),
     h !! init = Some v →
     cg_tomo_batch 1 1 1 2 Voxel.fwd_col Voxel.adj_col fuel xi0 init titer h
     = (Done (fresh (dom h)), <[fresh (dom h) := v]> h)).
Proof.
  split; [lia|].
  apply (oversized_partition 1 1 1 2 Voxel.fwd_col Voxel.adj_col). lia.
Defined.

(** Four slices, partitions of none. *)
Lemma zero_partition_size_witness :
  0%nat = 0%nat ∧
  (∀ u : arr3, fwd_tomo_batch 1 4 1 0 Voxel.fwd_col u = Raise ZeroDivisionError) ∧
  (∀ data : arr3,
     adj_tomo_batch 4 1 0 Voxel.adj_col data = Raise ZeroDivisionError) ∧
  (∀ fuel (xi0 : arr3) (init : loc) (titer : nat) (h : heap) (v : arr3),
     h !! init = Some v →
     ∃ h',
       cg_tomo_batch 1 4 1 0 Voxel.fwd_col Voxel.adj_col fuel xi0 init titer h
       = (Raise ZeroDivisionError, h') ∧
       h' !! init = Some v).
Proof.
  split; [reflexivity|].
  apply (zero_partition_size 1 4 1 0 Voxel.fwd_col Voxel.adj_col). reflexivity.
Defined.

(** The half step passes the test, so two units of fuel are enough. *)
Lemma line_search_terminates_witness :
  0 <= minf (Voxel.vox 0 0) (Voxel.vox 1 0)
       - minf (Voxel.vox 0 0)
           (a3add (Voxel.vox 1 0) (a3scale (1 * half ^ 1) (Voxel.vox (-4) 0)))
  ∧ ∃ k' : nat, (k' ≤ 1)%nat ∧
      ∀ fuel : nat, (1 < fuel)%nat →
        line_search fuel (minf (Voxel.vox 0 0)) 1 (Voxel.vox 1 0) (Voxel.vox (-4) 0)
        = Done (1 * half ^ k').
Proof.
  assert (0 <= minf (Voxel.vox 0 0) (Voxel.vox 1 0)
               - minf (Voxel.vox 0 0)
                   (a3add (Voxel.vox 1 0)
                      (a3scale (1 * half ^ 1) (Voxel.vox (-4) 0)))) as H.
  { by vm_compute. }
  split; [exact H|].
  apply (line_search_terminates (minf (Voxel.vox 0 0)) 1 (Voxel.vox 1 0)
           (Voxel.vox (-4) 0) 1 H).
Defined.

(** One voxel and the zero direction. *)
Lemma line_search_zero_direction_witness :
  shape3 1 1 1 (Voxel.vox 1 0) ∧
  line_search 1 (minf (Voxel.vox 0 0)) 1 (Voxel.vox 1 0) (zeros3 1 1 1) = Done 1.
Proof.
  assert (shape3 1 1 1 (Voxel.vox 1 0)) as Hv by (split; [done|repeat constructor]).
  split; [exact Hv|].
  apply (line_search_zero_direction 0 (minf (Voxel.vox 0 0)) 1 1 1 1
           (Voxel.vox 1 0) Hv).
Defined.

(** Two passes on one partition of two slices. *)
Lemma cg_tomo_shape_witness :
  ∃ w : arr3,
    (shape3 2 1 1 Voxel.vol2 ∧
     cg_tomo 1 1 2 Voxel.fwd_col Voxel.adj_col 4 Voxel.proj2 Voxel.vol2 2 = Done w) ∧
    shape3 2 1 1 w.
Proof.
  assert (shape3 2 1 1 Voxel.vol2) as Hv by (split; [done|repeat constructor]).
  eexists. split; [split; [exact Hv|vm_compute; reflexivity]|].
  apply (cg_tomo_shape 1 1 2 Voxel.fwd_col Voxel.adj_col 4 Voxel.proj2
           Voxel.vol2 _ 2 Hv).
  vm_compute; reflexivity.
Defined.

(** The step of the second pass on one partition of two slices. *)
Lemma cg_step_size_witness :
  ∃ s s' : cg_vars,
    (cg_run 1 1 2 Voxel.fwd_col Voxel.adj_col 4 Voxel.proj2 Voxel.vol2 1 = Done s ∧
     cg_run 1 1 2 Voxel.fwd_col Voxel.adj_col 4 Voxel.proj2 Voxel.vol2 2 = Done s') ∧
    ∃ (k : nat) (d grad : arr3),
      cg_hist s' = Some (d, grad) ∧
      cg_u s' = a3add (cg_u s) (a3scale (half ^ S k) d) ∧
      0 < half ^ S k ∧ half ^ S k <= half.
Proof.
  do 2 eexists. split; [split; vm_compute; reflexivity|].
  apply (cg_step_size 1 1 2 Voxel.fwd_col Voxel.adj_col 4 Voxel.proj2
           Voxel.vol2 1);
    vm_compute; reflexivity.
Defined.

(** Data that the volume reproduces exactly. *)
Lemma cg_tomo_stationary_witness :
  ((0 < 1)%nat ∧ (0 < 1)%nat ∧
   shape3 2 1 1 Voxel.vol2 ∧
   shape3 1 2 1 (fwd_tomo 1 1 2 Voxel.fwd_col Voxel.vol2) ∧
   adj_tomo 1 2 Voxel.adj_col
     (a3sub (fwd_tomo 1 1 2 Voxel.fwd_col Voxel.vol2)
        (fwd_tomo 1 1 2 Voxel.fwd_col Voxel.vol2))
   = zeros3 2 1 1 ∧
   fwd_tomo 1 1 2 Voxel.fwd_col (zeros3 2 1 1) = zeros3 1 2 1) ∧
  0 < Qc_of_nat 1 * Qc_of_nat 1 / 2 ∧
  cg_tomo 1 1 2 Voxel.fwd_col Voxel.adj_col 1
    (fwd_tomo 1 1 2 Voxel.fwd_col Voxel.vol2) Voxel.vol2 3
  = Done Voxel.vol2.
Proof.
  assert (shape3 2 1 1 Voxel.vol2) as Hv by (split; [done|repeat constructor]).
  assert (shape3 1 2 1 (fwd_tomo 1 1 2 Voxel.fwd_col Voxel.vol2)) as Hx
    by apply fwd_tomo_shape.
  assert (adj_tomo 1 2 Voxel.adj_col
            (a3sub (fwd_tomo 1 1 2 Voxel.fwd_col Voxel.vol2)
               (fwd_tomo 1 1 2 Voxel.fwd_col Voxel.vol2))
          = zeros3 2 1 1) as Hg by (vm_compute; reflexivity).
  assert (fwd_tomo 1 1 2 Voxel.fwd_col (zeros3 2 1 1) = zeros3 1 2 1) as Hz
    by (vm_compute; reflexivity).
  split; [split_and!; [lia|lia|done..]|].
  apply (cg_tomo_stationary 1 1 2 Voxel.fwd_col Voxel.adj_col 0
           (fwd_tomo 1 1 2 Voxel.fwd_col Voxel.vol2) Voxel.vol2 3
           ltac:(lia) ltac:(lia) Hv Hx Hg Hz).
Defined.

(** Two passes on one partition of two slices, shapes as documented. *)
Lemma cg_tomo_no_raise_witness :
  (shape3 2 1 1 Voxel.vol2 ∧ shape3 1 2 1 Voxel.proj2) ∧
  (∀ e, cg_tomo 1 1 2 Voxel.fwd_col Voxel.adj_col 4 Voxel.proj2 Voxel.vol2 2
        ≠ Raise e) ∧
  ∀ (i : nat) s,
    cg_run 1 1 2 Voxel.fwd_col Voxel.adj_col 4 Voxel.proj2 Voxel.vol2 i = Done s →
    shape3 2 1 1 (cg_u s) ∧
    same_shape (fwd_tomo 1 1 2 Voxel.fwd_col (cg_u s)) Voxel.proj2 ∧
    match cg_hist s with
    | Some (d, grad0) =>
        shape3 2 1 1 d ∧ shape3 2 1 1 grad0 ∧
        same_shape (fwd_tomo 1 1 2 Voxel.fwd_col d) Voxel.proj2
    | None => i = 0%nat
    end.
Proof.
  assert (shape3 2 1 1 Voxel.vol2) as Hv by (split; [done|repeat constructor]).
  assert (shape3 1 2 1 Voxel.proj2) as Hp by (split; [done|repeat constructor]).
  split; [done|].
  apply (cg_tomo_no_raise 1 1 2 Voxel.fwd_col Voxel.adj_col 4 Voxel.proj2
           Voxel.vol2 2 Hv Hp).
Defined.

(** Four slices solved in two partitions of two, one pass each. *)
Lemma cg_tomo_batch_partitions_witness :
  ((0 < 2)%nat ∧ Voxel.heap1 Voxel.vol4 !! 1%positive = Some Voxel.vol4 ∧
   shape3 4 1 1 Voxel.vol4 ∧ shape3 1 4 1 Voxel.proj4) ∧
  match map_result
          (λ k, cg_tomo 1 1 2 Voxel.fwd_col Voxel.adj_col 5
                  (proj_part 2 k Voxel.proj4) (vol_part 2 k Voxel.vol4) 1)
          (seq 0 (4 / 2)) with
  | Done ws =>
      cg_tomo_batch 1 4 1 2 Voxel.fwd_col Voxel.adj_col 5 Voxel.proj4
        1%positive 1 (Voxel.heap1 Voxel.vol4)
      = (Done (fresh (dom (Voxel.heap1 Voxel.vol4))),
         <[fresh (dom (Voxel.heap1 Voxel.vol4))
           := concat ws ++ drop (4 / 2 * 2) Voxel.vol4]>
           (Voxel.heap1 Voxel.vol4))
  | Raise _ => False
  | OutOfFuel =>
      (cg_tomo_batch 1 4 1 2 Voxel.fwd_col Voxel.adj_col 5 Voxel.proj4
         1%positive 1 (Voxel.heap1 Voxel.vol4)).1 = OutOfFuel
  end.
Proof.
  assert (shape3 4 1 1 Voxel.vol4) as Hv by (split; [done|repeat constructor]).
  assert (shape3 1 4 1 Voxel.proj4) as Hp by (split; [done|repeat constructor]).
  split; [split_and!; [lia|reflexivity|done|done]|].
  apply (cg_tomo_batch_partitions 1 4 1 2 Voxel.fwd_col Voxel.adj_col 5
           Voxel.proj4 1%positive 1 (Voxel.heap1 Voxel.vol4) Voxel.vol4);
    [lia|reflexivity|done|done].
Defined.

(** Four slices against data of depth one. *)
Lemma cg_tomo_batch_short_data_witness :
  ((0 < 2)%nat ∧ (2 ≤ 4)%nat ∧
   Voxel.heap1 Voxel.vol4 !! 1%positive = Some Voxel.vol4 ∧
   length Voxel.vol4 = 4%nat ∧
   Exists (λ row : arr2, (length row < 2)%nat) (Voxel.vox 0 1)) ∧
  cg_tomo_batch 1 4 1 2 Voxel.fwd_col Voxel.adj_col 5 (Voxel.vox 0 1)
    1%positive 2 (Voxel.heap1 Voxel.vol4)
  = (Raise IndexError,
     <[fresh (dom (Voxel.heap1 Voxel.vol4)) := Voxel.vol4]>
       (Voxel.heap1 Voxel.vol4)).
Proof.
  assert (Exists (λ row : arr2, (length row < 2)%nat) (Voxel.vox 0 1)) as Hs.
  { apply Exists_cons_hd. simpl. lia. }
  split; [split_and!; [lia|lia|reflexivity|reflexivity|exact Hs]|].
  apply (cg_tomo_batch_short_data 1 4 1 2 Voxel.fwd_col Voxel.adj_col 5
           (Voxel.vox 0 1) 1%positive 2 (Voxel.heap1 Voxel.vol4) Voxel.vol4);
    [lia|lia|reflexivity|reflexivity|exact Hs].
Defined.

(** * The direction update over an adjoint pair *)

(** ** Sums over the flattened array *)















(** ** [vdot] is additive and homogeneous in its second argument *)

Section VdotLinear.
Context (p q r : nat).






End VdotLinear.



(** ** The denominator of the direction update is real *)

Section RealDirection.
Context (ntheta n pnz : nat).
Context (fwd adj : arr3 → nat → nat → nat → C).

Local Abbreviation fwd_tomo := (fwd_tomo ntheta n pnz fwd).
Local Abbreviation adj_tomo := (adj_tomo n pnz adj).
Local Abbreviation cg_run := (cg_run ntheta n pnz fwd adj).



End RealDirection.


(** * Line search in binary64: the bound *)

(** X15.  With the step a binary64 float, the search from [gamma = 1]
    returns within 1075 halvings whenever the objective takes the same
    value at [Ru + 0.0*Rd] as at [Ru]: the step underflows to [0.0], where
    the difference is a zero or NaN and the test fails. *)
Theorem line_search_underflow {T : Type} (add : T → T → T)
    (scale : float → T → T) (minf : T → float) (Ru Rd : T) :
  minf (add Ru (scale 0%float Rd)) = minf Ru →
  ∃ k : nat, (k ≤ 1075)%nat ∧
    ∀ fuel : nat, (k < fuel)%nat →
      Binary64.line_search add scale fuel minf 1%float Ru Rd
      = Done (Binary64.halved k 1%float).
Proof.
  intros Hzero. apply line_search_float_reaches.
  destruct halved_one_underflows as [-> _].
  unfold Binary64.increases. rewrite Hzero. apply float_sub_diag_not_neg.
Qed.

(** The objective [x*x] from [Ru = 0] along [Rd = 1]: every positive step
    increases it, and the search returns once the square of the step
    underflows, after 538 halvings. *)
Lemma line_search_underflow_witness :
  Scalar.square (PrimFloat.add 0%float (PrimFloat.mul 0%float 1%float))
  = Scalar.square 0%float ∧
  ∃ k : nat, (k ≤ 1075)%nat ∧
    ∀ fuel : nat, (k < fuel)%nat →
      Binary64.line_search PrimFloat.add PrimFloat.mul fuel Scalar.square
        1%float 0%float 1%float
      = Done (Binary64.halved k 1%float).
Proof.
  split; [reflexivity|].
  apply (line_search_underflow PrimFloat.add PrimFloat.mul Scalar.square
           0%float 1%float).
  reflexivity.
Defined.

(** The run of that search: 538 halvings, then the square of the step is
    [0.0] and the test fails. *)
Lemma line_search_square_538 :
  Binary64.line_search PrimFloat.add PrimFloat.mul 539 Scalar.square
    1%float 0%float 1%float
  = Done (Binary64.halved 538 1%float).
Proof. vm_compute. reflexivity. Qed.
